(** * dsync: quorum-based distributed mutex (dmutex.go)

    A shallow embedding of [dmutex.go] and the properties of its
    quorum acquisition, release and back-off code.

    Conventions of the embedding:
    - Go [int] values that take part in arithmetic ([n], the loop counter
      [i], [runs], [backOff]) are [Z]; slice indices produced by [range]
      or by a loop starting at [0] are [nat].
    - A [[]bool] is a [list bool]; an index outside the slice panics in Go,
      which the embedding writes out as [Panic].
    - A [*rpc.Client] is an [option Conn] ([None] is the nil pointer).
    - [go sendRelease(c, name)] and [time.Sleep] are recorded, in program
      order, in a list of [effect]s.
    - The replies of the peers and the firing of the timer are inputs of the
      embedding (the schedule chosen by the network). *)

From Stdlib Require Import ZArith Lia String List.
From stdpp Require Import base tactics option list.

Local Open Scope string_scope.
Local Open Scope list_scope.

(** ** Results of code that can panic *)

Inductive result (A : Type) : Type :=
  | Ok (a : A)
  | Panic (msg : string).
Arguments Ok {A} a.
Arguments Panic {A} msg.

#[global] Instance result_ret : MRet result := @Ok.
#[global] Instance result_bind : MBind result :=
  fun A B f m => match m with Ok a => f a | Panic msg => Panic msg end.

Definition index_out_of_range : string := "runtime error: index out of range".
Definition makeslice_len : string := "runtime error: makeslice: len out of range".
Definition unlock_of_unlocked : string :=
  "dsync: unlock of unlocked distributed mutex".

(** [make([]T, len)]: panics on a negative length. *)
Definition make {A : Type} (zero : A) (len : Z) : result (list A) :=
  if (len <? 0)%Z then Panic makeslice_len
  else Ok (replicate (Z.to_nat len) zero).

(** [copy(dst, src)]: overwrites the first [min (len dst) (len src)]
    elements of [dst]. *)
Definition copy {A : Type} (dst src : list A) : list A :=
  take (length dst) src ++ drop (length src) dst.

(** [type Granted struct { index int; locked bool }] *)
Record Granted : Type := { index : nat; locked : bool }.

Section Dsync.

(** The connection type behind [*rpc.Client]. *)
Context {Conn : Type}.

(** Package-level configuration, declared outside [dmutex.go]. *)
Variable n : Z.
Variable nodes : list string.

Definition Client : Type := option Conn.

(** Effects visible outside the mutex. *)
Inductive effect : Type :=
  | SendRelease (peer : nat) (c : Client) (name : string)
  | Sleep (ms : Z).

(** [type DMutex struct]; the local [sync.Mutex] has no content.
    [clnts = None] is the nil slice that [connectLazy] tests for. *)
Record DMutex : Type := {
  Name : string;
  locks : list bool;
  clnts : option (list Client)
}.

(** The zero value [DMutex{Name: name}]. *)
Definition newDMutex (name : string) : DMutex :=
  {| Name := name; locks := []; clnts := None |}.

(** [dm.clnts] read as a slice (nil has length 0). *)
Definition clients (dm : DMutex) : list Client := default [] (clnts dm).

(** ** connectLazy *)

Fixpoint connect_range (dial : nat -> string -> Client) (i : nat)
    (cs : list Client) : result (list Client) :=
  match cs with
  | [] => Ok []
  | c :: cs' =>
      c' ← match c with
           | Some _ => Ok c
           | None =>
               match nodes !! i with
               | Some addr => Ok (dial i addr)
               | None => Panic index_out_of_range
               end
           end;
      cs'' ← connect_range dial (S i) cs';
      Ok (c' :: cs'')
  end.

Definition connectLazy (dial : nat -> string -> Client) (dm : DMutex)
    : result DMutex :=
  cs ← match clnts dm with
       | None => make None n
       | Some cs => Ok cs
       end;
  cs' ← connect_range dial 0 cs;
  Ok {| Name := Name dm; locks := locks dm; clnts := Some cs' |}.

(** ** quorumMet *)

Definition count_locked (locks : list bool) : Z :=
  fold_left (fun count locked => if locked : bool then (count + 1)%Z else count)
            locks 0%Z.

Definition quorumMet (locks : list bool) : bool :=
  (count_locked locks >=? n ÷ 2 + 1)%Z.

(** The number of true entries of a grant vector, as the specification
    counts them. *)
Definition true_entries (grants : list bool) : Z :=
  Z.of_nat (length (List.filter (fun b => b) grants)).

(** ** releaseAll *)

Fixpoint releaseAll_loop (todo lock : nat) (clnts : list Client)
    (locks : list bool) (lockName : string)
    : result (list bool * list effect) :=
  match todo with
  | O => Ok (locks, [])
  | S todo' =>
      match locks !! lock with
      | None => Panic index_out_of_range
      | Some false => releaseAll_loop todo' (S lock) clnts locks lockName
      | Some true =>
          match clnts !! lock with
          | None => Panic index_out_of_range
          | Some c =>
              '(locks', sent) ←
                releaseAll_loop todo' (S lock) clnts (<[lock:=false]> locks)
                                lockName;
              Ok (locks', SendRelease lock c lockName :: sent)
          end
      end
  end.

(** [for lock := 0; lock < n; lock++]: [Z.to_nat n] iterations from 0. *)
Definition releaseAll (clnts : list Client) (locks : list bool)
    (lockName : string) : result (list bool * list effect) :=
  releaseAll_loop (Z.to_nat n) 0 clnts locks lockName.

(** ** hasLock *)

Fixpoint hasLock_range (idx : nat) (ns : list string) (locks : list bool)
    (node : string) : result bool :=
  match ns with
  | [] => Ok false
  | a :: ns' =>
      if String.eqb a node then
        match locks !! idx with
        | Some b => Ok b
        | None => Panic index_out_of_range
        end
      else hasLock_range (S idx) ns' locks node
  end.

Definition hasLock (dm : DMutex) (node : string) : result bool :=
  hasLock_range 0 nodes (locks dm) node.

(** ** locked and Unlock *)

Definition DMutex_locked (dm : DMutex) : result bool :=
  fresh ← make false n;
  Ok (quorumMet (copy fresh (locks dm))).

Fixpoint Unlock_range (idx : nat) (cs : list Client) (locks : list bool)
    (name : string) : result (list bool * list effect) :=
  match cs with
  | [] => Ok (locks, [])
  | c :: cs' =>
      match locks !! idx with
      | None => Panic index_out_of_range
      | Some false => Unlock_range (S idx) cs' locks name
      | Some true =>
          '(locks', sent) ←
            Unlock_range (S idx) cs' (<[idx:=false]> locks) name;
          Ok (locks', SendRelease idx c name :: sent)
      end
  end.

Definition Unlock (dm : DMutex) : result (DMutex * list effect) :=
  held ← DMutex_locked dm;
  if negb held then Panic unlock_of_unlocked
  else
    '(locks', sent) ← Unlock_range 0 (clients dm) (locks dm) (Name dm);
    Ok ({| Name := Name dm; locks := locks'; clnts := clnts dm |}, sent).

(** ** lock: one acquisition attempt

    The coordinator goroutine of [lock] owns the counter [i], writes the
    grant vector [*locks] and dispatches releases.  Its inputs are the
    replies in the order in which the channel delivers them, and [timer]:
    the number of replies the [select] receives before it takes the
    [<-timeout] case.  When no reply is left the [select] can only wait for
    the timer, which always fires. *)

Record coord : Type := {
  c_i : Z;
  c_locks : list bool;
  c_sent : list effect
}.

(** The [case <-timeout] branch followed by [break]. *)
Definition timed_out (clnts : list Client) (lockName : string) (i : Z)
    (locks : list bool) (sent : list effect) (pending : list Granted)
    : result (coord * list Granted) :=
  if negb (quorumMet locks) then
    '(locks', rel) ← releaseAll clnts locks lockName;
    Ok ({| c_i := i; c_locks := locks'; c_sent := sent ++ rel |}, pending)
  else Ok ({| c_i := i; c_locks := locks; c_sent := sent |}, pending).

(** The first loop [for ; i < n; i++ { select ... }].  The result is the
    coordinator state at the decision point and the replies not yet
    received.  A [break] leaves [i] as it is. *)
Fixpoint decision (clnts : list Client) (lockName : string) (timer : nat)
    (i : Z) (locks : list bool) (sent : list effect) (replies : list Granted)
    : result (coord * list Granted) :=
  if (i <? n)%Z then
    match timer, replies with
    | S timer', grant :: pending =>
        if locked grant then
          match locks !! index grant with
          | None => Panic index_out_of_range
          | Some _ =>
              decision clnts lockName timer' (i + 1)
                       (<[index grant:=true]> locks) sent pending
          end
        else
          '(locks', rel) ← releaseAll clnts locks lockName;
          Ok ({| c_i := i; c_locks := locks'; c_sent := sent ++ rel |},
              pending)
    | _, _ => timed_out clnts lockName i locks sent replies
    end
  else Ok ({| c_i := i; c_locks := locks; c_sent := sent |}, replies).

(** The second loop [for ; i < n; i++ { grantToBeReleased := <-ch ... }].
    It reads [c_locks] nowhere and writes it nowhere; with no reply left
    the receive blocks for good. *)
Fixpoint drain (clnts : list Client) (lockName : string) (st : coord)
    (replies : list Granted) : result coord :=
  if (c_i st <? n)%Z then
    match replies with
    | [] => Ok st
    | grantToBeReleased :: pending =>
        if locked grantToBeReleased then
          match clnts !! index grantToBeReleased with
          | None => Panic index_out_of_range
          | Some c =>
              drain clnts lockName
                {| c_i := c_i st + 1; c_locks := c_locks st;
                   c_sent := c_sent st ++
                     [SendRelease (index grantToBeReleased) c lockName] |}
                pending
          end
        else
          drain clnts lockName
            {| c_i := c_i st + 1; c_locks := c_locks st;
               c_sent := c_sent st |}
            pending
    end
  else Ok st.

(** What [lock] hands back at [wg.Wait()]: the flag [quorum], the
    coordinator state at the decision point (its [c_locks] is [*locks])
    and the replies still owed to the drain loop, which runs on after
    [lock] has returned. *)
Definition lock (clnts : list Client) (locks : list bool)
    (lockName : string) (timer : nat) (replies : list Granted)
    : result (bool * coord * list Granted) :=
  '(st, pending) ← decision clnts lockName timer 0 locks [] replies;
  Ok (quorumMet (c_locks st), st, pending).

(** ** Back-off

    [rand.Float64()] returns [m / 2^53] for an integer [0 <= m < 2^53];
    the product with [math.Pow(2, runs)] is exact in float64 and [int(.)]
    truncates it. *)
Definition valid_draw (m : Z) : Prop := (0 <= m < 2 ^ 53)%Z.

Definition backoff_increment (runs m : Z) : Z := ((m * 2 ^ runs) ÷ 2 ^ 53)%Z.

(** The update of [(runs, backOff)] after the sleep. *)
Definition backoff_step (runs backOff m : Z) : Z * Z :=
  let backOff := (backOff + backoff_increment runs m)%Z in
  if (backOff >? 1024)%Z then (1%Z, Z.rem backOff 64)
  else if (runs <? 10)%Z then ((runs + 1)%Z, backOff)
  else (runs, backOff).

(** ** Lock

    One entry of the schedule per iteration of the retry loop: the outcome
    of the dials of [connectLazy], the replies and timer of the attempt,
    and the random draw used if the attempt fails. *)
Record round : Type := {
  r_dial : nat -> string -> Client;
  r_replies : list Granted;
  r_timer : nat;
  r_draw : Z
}.

(** One pass through the body of the retry loop, up to the test of
    [success]: [connectLazy], a fresh vector, [lock].  [Won]: [Lock] stores
    the vector and returns while the drain loop [bg] runs on; its releases
    come after those in [sent].  [Lost]: the releases of the attempt, those
    of its drain loop included, are in [sent].  [Died]: a panic. *)
Inductive attempt : Type :=
  | Won (dm : DMutex) (sent : list effect) (bg : result coord)
  | Lost (dm : DMutex) (sent : list effect)
  | Died (msg : string) (sent : list effect).

Definition Lock_try (r : round) (dm : DMutex) : attempt :=
  match connectLazy (r_dial r) dm with
  | Panic msg => Died msg []
  | Ok dm =>
      match make false n with
      | Panic msg => Died msg []
      | Ok vector =>
          match lock (clients dm) vector (Name dm) (r_timer r)
                     (r_replies r) with
          | Panic msg => Died msg []
          | Ok (true, st, pending) =>
              match make false n with
              | Panic msg => Died msg (c_sent st)
              | Ok fresh =>
                  Won {| Name := Name dm;
                         locks := copy fresh (c_locks st);
                         clnts := clnts dm |}
                      (c_sent st)
                      (drain (clients dm) (Name dm) st pending)
              end
          | Ok (false, st, pending) =>
              match drain (clients dm) (Name dm) st pending with
              | Panic msg => Died msg (c_sent st)
              | Ok st' => Lost dm (c_sent st')
              end
          end
      end
  end.

Inductive outcome : Type :=
  (** [Lock] returned; [bg] is the drain loop of the winning attempt. *)
  | Returned (dm : DMutex) (log : list effect) (bg : result coord)
  (** every round of the schedule failed: [Lock] is still in its loop. *)
  | Retrying (dm : DMutex) (runs backOff : Z) (log : list effect)
  | Crashed (msg : string) (log : list effect).

(** The retry loop [for { ... }] of [Lock] with its back-off state. *)
Fixpoint Lock_loop (sched : list round) (dm : DMutex) (runs backOff : Z)
    (log : list effect) : outcome :=
  match sched with
  | [] => Retrying dm runs backOff log
  | r :: sched' =>
      match Lock_try r dm with
      | Won dm sent bg => Returned dm (log ++ sent) bg
      | Died msg sent => Crashed msg (log ++ sent)
      | Lost dm sent =>
          let '(runs', backOff') := backoff_step runs backOff (r_draw r) in
          Lock_loop sched' dm runs' backOff' (log ++ sent ++ [Sleep backOff])
      end
  end.

Definition Lock (sched : list round) (dm : DMutex) : outcome :=
  Lock_loop sched dm 1 1 [].

(** The effects recorded by an outcome. *)
Definition log_of (o : outcome) : list effect :=
  match o with
  | Returned _ log _ => log
  | Retrying _ _ _ log => log
  | Crashed _ log => log
  end.

(** ** Representation invariant of a [DMutex]

    Reached from [newDMutex] through [Lock] and [Unlock]: the client
    pool, once built, has [n] slots, and the grant vector is nil or has
    [n] entries (and is nil while the pool is). *)
Definition DMutex_ok (dm : DMutex) : bool :=
  match clnts dm with
  | None => bool_decide (locks dm = [])
  | Some cs =>
      (Z.of_nat (length cs) =? n)%Z &&
      (bool_decide (locks dm = []) || (Z.of_nat (length (locks dm)) =? n)%Z)
  end.

(** ** Vocabulary of the statements *)

(** What a release loop over the index window [lock, lock + todo) has
    done when it is through. *)
Definition released (lock todo : nat) (clnts : list Client)
    (grants : list bool) (name : string) (grants' : list bool)
    (sent : list effect) : Prop :=
  length grants' = length grants /\
  (forall j, grants' !! j =
             if decide (lock <= j < lock + todo)%nat then Some false
             else grants !! j) /\
  (forall k c nm,
      In (SendRelease k c nm) sent <->
      nm = name /\ (lock <= k < lock + todo)%nat /\
      clnts !! k = Some c /\ grants !! k = Some true) /\
  (forall ms, ~ In (Sleep ms) sent).

Definition grant_of (k : nat) : Granted := {| index := k; locked := true |}.

(** Peer [k] is entitled to a release: it was marked in the vector the
    attempt started from, or its grant is among the replies [seen]. *)
Definition granted_by (grants : list bool) (seen : list Granted) (k : nat)
    : Prop :=
  grants !! k = Some true \/ In (grant_of k) seen.

(** What the decision loop has done when it stops: it has received a
    prefix [seen] of the replies, [i] has advanced by at most their number,
    the vector has kept its length, every entry still true and every
    release dispatched is backed by a grant. *)
Definition decided (clnts : list Client) (name : string) (i : Z)
    (grants : list bool) (sent : list effect) (replies : list Granted)
    (st : coord) (pending : list Granted) : Prop :=
  exists seen rel,
    replies = seen ++ pending /\
    (i <= c_i st <= i + Z.of_nat (length seen))%Z /\
    length (c_locks st) = length grants /\
    c_sent st = sent ++ rel /\
    (forall k, c_locks st !! k = Some true -> granted_by grants seen k) /\
    (forall k c nm, In (SendRelease k c nm) rel ->
                    nm = name /\ clnts !! k = Some c /\
                    granted_by grants seen k) /\
    (forall ms, ~ In (Sleep ms) rel).

(** The vector after the grants of [pre] have been marked in it. *)
Definition marked (pre : list Granted) (grants : list bool) : list bool :=
  fold_left (fun l g => <[index g:=true]> l) pre grants.

(** One release per late grant, in the order of arrival. *)
Definition late_releases (clnts : list Client) (name : string)
    (pending : list Granted) : list effect :=
  flat_map (fun g : Granted =>
              if locked g then
                match clnts !! index g with
                | Some c => [SendRelease (index g) c name]
                | None => []
                end
              else []) pending.

(** The releases of one attempt carry the mutex name and go to peers whose
    grant is among the replies of the round; an attempt does not sleep. *)
Definition sent_by (r : round) (name : string) (sent : list effect) : Prop :=
  (forall ms, ~ In (Sleep ms) sent) /\
  (forall k c nm, In (SendRelease k c nm) sent ->
                  nm = name /\ In (grant_of k) (r_replies r)).

(** The durations slept, in order. *)
Definition sleeps_of (log : list effect) : list Z :=
  flat_map (fun e => match e with Sleep ms => [ms] | _ => [] end) log.

(** The back-off values that the draws produce from [(runs, backOff)]: the
    value slept before each update. *)
Fixpoint backoff_trace (runs backOff : Z) (draws : list Z) : list Z :=
  match draws with
  | [] => []
  | m :: draws' =>
      backOff :: backoff_trace (fst (backoff_step runs backOff m))
                               (snd (backoff_step runs backOff m)) draws'
  end.

(** [i] is the first index of [node] in [ns]. *)
Definition first_index (ns : list string) (node : string) (i : nat) : Prop :=
  ns !! i = Some node /\ forall j, (j < i)%nat -> ns !! j <> Some node.

(** What [connectLazy] has done with slot [c] at index [k]: a live client is
    kept as it is, a nil slot holds the outcome of dialling [nodes[k]]. *)
Definition connected (dial : nat -> string -> Client) (k : nat)
    (c c' : Client) : Prop :=
  match c with
  | Some h => c' = Some h
  | None => exists addr, nodes !! k = Some addr /\ c' = dial k addr
  end.

(** The decision loop receives grants [pre] and then stops in one of two
    ways: it keeps the marked vector (all [n] replies received, or the timer
    fired on a quorum), or it releases the marked vector (the timer fired
    short of the quorum, or a refusal arrived). *)
Inductive stopped (clnts : list Client) (name : string) (i : Z)
    (grants : list bool) (sent : list effect) (replies : list Granted)
    (st : coord) (pending : list Granted) : Prop :=
  | stopped_kept (pre : list Granted) :
      Forall (fun g => locked g = true /\ (index g < length grants)%nat) pre ->
      replies = pre ++ pending ->
      c_i st = (i + Z.of_nat (length pre))%Z ->
      c_locks st = marked pre grants ->
      c_sent st = sent ->
      quorumMet (marked pre grants) = true \/ (n <= c_i st)%Z ->
      stopped clnts name i grants sent replies st pending
  | stopped_released (pre : list Granted) (rel : list effect) :
      Forall (fun g => locked g = true /\ (index g < length grants)%nat) pre ->
      (replies = pre ++ pending /\ quorumMet (marked pre grants) = false) \/
      (exists neg, locked neg = false /\ replies = pre ++ neg :: pending) ->
      c_i st = (i + Z.of_nat (length pre))%Z ->
      (c_i st < n)%Z ->
      releaseAll clnts (marked pre grants) name = Ok (c_locks st, rel) ->
      c_sent st = sent ++ rel ->
      stopped clnts name i grants sent replies st pending.

(** What one pass of the loop body establishes. *)
Definition tried (r : round) (dm : DMutex) (a : attempt) : Prop :=
  match a with
  | Won dm' sent bg =>
      (0 <= n)%Z /\ Name dm' = Name dm /\ sent_by r (Name dm) sent /\
      exists cs st pending,
        clnts dm' = Some cs /\
        match clnts dm with
        | None => length cs = Z.to_nat n
        | Some cs0 => length cs = length cs0
        end /\
        lock cs (replicate (Z.to_nat n) false) (Name dm) (r_timer r)
             (r_replies r) = Ok (true, st, pending) /\
        quorumMet (c_locks st) = true /\
        length (c_locks st) = Z.to_nat n /\
        locks dm' = c_locks st /\ sent = c_sent st /\
        bg = drain cs (Name dm) st pending
  | Lost dm' sent =>
      (0 <= n)%Z /\ Name dm' = Name dm /\ locks dm' = locks dm /\
      sent_by r (Name dm) sent /\
      exists cs, clnts dm' = Some cs /\
        match clnts dm with
        | None => length cs = Z.to_nat n
        | Some cs0 => length cs = length cs0
        end
  | Died _ sent => sent_by r (Name dm) sent
  end.

End Dsync.

(** ** Example schedules *)

(** A cluster of four peers and a schedule of two rounds: in the first,
    peers 1 and 2 grant and peer 0 refuses; in the second, peers 0, 1, 2
    grant ahead of the timer and peer 3 grants late. *)
Definition four_nodes : list string := ["A"; "B"; "C"; "D"].

Definition two_rounds : list (@round nat) :=
  [ {| r_dial := fun i _ => Some i;
       r_replies := [ {| index := 1; locked := true |};
                      {| index := 2; locked := true |};
                      {| index := 0; locked := false |};
                      {| index := 3; locked := true |} ];
       r_timer := 4; r_draw := 0%Z |};
    {| r_dial := fun i _ => Some i;
       r_replies := [ {| index := 0; locked := true |};
                      {| index := 1; locked := true |};
                      {| index := 2; locked := true |};
                      {| index := 3; locked := true |} ];
       r_timer := 3; r_draw := 0%Z |} ].

(** The pool and the replies of the scenarios of the specification. *)
Definition four_clients : list (@Client nat) :=
  [Some 0%nat; Some 1%nat; Some 2%nat; Some 3%nat].

Definition reply (k : nat) (b : bool) : Granted := {| index := k; locked := b |}.

(** A single peer that never answers in time, and draws that push the
    back-off to 1014 ms and then, by 74, to 1088 ms. *)
Definition zero_sleep_draws : list Z :=
  (repeat (2 ^ 53 - 1) 9 ++ [74 * 2 ^ 43; 0])%Z.

Definition zero_sleep_sched : list (@round nat) :=
  map (fun m => {| r_dial := fun i _ => Some i; r_replies := [];
                   r_timer := 0; r_draw := m |})
      zero_sleep_draws.

(** * Properties *)

Local Open Scope Z_scope.

(** ** The result monad *)

Lemma bind_Ok {A B : Type} (m : result A) (f : A -> result B) (b : B) :
  m ≫= f = Ok b -> exists a, m = Ok a /\ f a = Ok b.
Proof. destruct m as [a|msg]; simpl; [eauto | discriminate]. Qed.

Ltac inv_bind H :=
  let a := fresh "a" in
  let Ha := fresh "Ha" in
  apply bind_Ok in H; destruct H as (a & Ha & H).

Lemma make_Ok {A : Type} (zero : A) (len : Z) (l : list A) :
  make zero len = Ok l -> 0 <= len /\ l = replicate (Z.to_nat len) zero.
Proof.
  unfold make. destruct (Z.ltb_spec len 0); [discriminate |].
  intros [= <-]. auto.
Qed.

Lemma make_nonneg {A : Type} (zero : A) (len : Z) :
  0 <= len -> make zero len = Ok (replicate (Z.to_nat len) zero).
Proof. unfold make. destruct (Z.ltb_spec len 0); [lia | reflexivity]. Qed.

Lemma copy_same_length {A : Type} (dst src : list A) :
  length dst = length src -> copy dst src = src.
Proof.
  intros E. unfold copy. rewrite E, firstn_all, drop_ge by lia.
  apply app_nil_r.
Qed.

Lemma copy_nil {A : Type} (dst : list A) : copy dst [] = dst.
Proof. unfold copy. now rewrite take_nil. Qed.

(** ** Counting grants *)

Lemma count_locked_from (locks : list bool) (acc : Z) :
  fold_left (fun count locked => if locked : bool then count + 1 else count)
            locks acc = acc + true_entries locks.
Proof.
  revert acc. induction locks as [|b locks IH]; intros acc.
  - unfold true_entries. simpl. lia.
  - simpl fold_left. rewrite IH. unfold true_entries. destruct b; simpl; lia.
Qed.

Lemma count_locked_true_entries (locks : list bool) :
  count_locked locks = true_entries locks.
Proof. unfold count_locked. rewrite count_locked_from. lia. Qed.

Lemma true_entries_nonneg (locks : list bool) : 0 <= true_entries locks.
Proof. unfold true_entries. lia. Qed.

Lemma true_entries_replicate_false (k : nat) :
  true_entries (replicate k false) = 0.
Proof. unfold true_entries. induction k; simpl; auto. Qed.

Lemma true_entries_pos (locks : list bool) :
  0 < true_entries locks -> exists k, locks !! k = Some true.
Proof.
  unfold true_entries. induction locks as [|b locks IH]; simpl; [lia |].
  destruct b; simpl.
  - intros _. now exists 0%nat.
  - intros H. destruct (IH H) as [k Hk]. now exists (S k).
Qed.

Lemma all_false_replicate (locks : list bool) :
  (forall k, locks !! k <> Some true) ->
  locks = replicate (length locks) false.
Proof.
  induction locks as [|b locks IH]; intros H; [reflexivity |].
  simpl. f_equal.
  - specialize (H 0%nat). destruct b; simpl in H; congruence.
  - apply IH. intros k. apply (H (S k)).
Qed.

Lemma quorumMet_true (n : Z) (locks : list bool) :
  quorumMet n locks = true <-> n ÷ 2 + 1 <= true_entries locks.
Proof.
  unfold quorumMet. rewrite count_locked_true_entries, Z.geb_leb.
  apply Z.leb_le.
Qed.

Lemma quorumMet_replicate_false (n : Z) (k : nat) :
  0 <= n -> quorumMet n (replicate k false) = false.
Proof.
  intros Hn. apply not_true_iff_false. rewrite quorumMet_true.
  rewrite true_entries_replicate_false, Z.quot_div_nonneg by lia.
  pose proof (Z.div_pos n 2 Hn). lia.
Qed.

(** ** quorumMet *)

(** C8: for a cluster of [n >= 1] peers, [quorumMet] answers true exactly
    when the number of true entries of the grant vector is at least
    [floor(n/2) + 1]; the threshold is 1 for [n = 1] and 2 for [n = 2]. *)
Theorem quorumMet_threshold (n : Z) (grants : list bool) :
  1 <= n ->
  (quorumMet n grants = true <-> n / 2 + 1 <= true_entries grants) /\
  (n = 1 -> (quorumMet n grants = true <-> 1 <= true_entries grants)) /\
  (n = 2 -> (quorumMet n grants = true <-> 2 <= true_entries grants)).
Proof.
  intros Hn.
  assert (E : n ÷ 2 = n / 2) by (apply Z.quot_div_nonneg; lia).
  split; [| split; intros ->]; rewrite quorumMet_true.
  - now rewrite E.
  - now change (1 ÷ 2 + 1) with 1.
  - now change (2 ÷ 2 + 1) with 2.
Qed.

Lemma quorumMet_threshold_witness :
  1 <= 3 /\
  (quorumMet 3 [true; false; true] = true <->
   3 / 2 + 1 <= true_entries [true; false; true]).
Proof.
  split; [lia |].
  refine (proj1 (quorumMet_threshold 3 [true; false; true] _)). lia.
Defined.

(** ** hasLock *)

Lemma hasLock_range_absent (idx : nat) (ns : list string) (grants : list bool)
    (node : string) :
  ~ In node ns -> hasLock_range idx ns grants node = Ok false.
Proof.
  revert idx. induction ns as [|a ns IH]; intros idx Hnot; simpl; [reflexivity |].
  destruct (String.eqb_spec a node) as [->|Hne].
  - exfalso. apply Hnot. now left.
  - apply IH. intros Hin. apply Hnot. now right.
Qed.

Lemma hasLock_range_first (idx : nat) (ns : list string) (grants : list bool)
    (node : string) (i : nat) (b : bool) :
  ns !! i = Some node ->
  (forall j, (j < i)%nat -> ns !! j <> Some node) ->
  grants !! (idx + i)%nat = Some b ->
  hasLock_range idx ns grants node = Ok b.
Proof.
  revert idx i. induction ns as [|a ns IH]; intros idx i Hi Hfirst Hb.
  - discriminate.
  - simpl. destruct (String.eqb_spec a node) as [->|Hne].
    + destruct i as [|i].
      * rewrite Nat.add_0_r in Hb. now rewrite Hb.
      * exfalso. apply (Hfirst 0%nat); [lia | reflexivity].
    + destruct i as [|i]; [simpl in Hi; congruence |].
      apply (IH (S idx) i); [exact Hi | |].
      * intros j Hj. apply (Hfirst (S j)). lia.
      * now replace (S idx + i)%nat with (idx + S i)%nat by lia.
Qed.

(** C10: [hasLock] answers false for an address that is not among the
    configured nodes; for an address that is, it answers the grant flag
    stored at the first index whose configured address equals it. *)
Theorem hasLock_first_match {Conn : Type} (nodes : list string)
    (dm : @DMutex Conn) (node : string) :
  (~ In node nodes -> hasLock nodes dm node = Ok false) /\
  (forall (i : nat) (b : bool),
      nodes !! i = Some node ->
      (forall j, (j < i)%nat -> nodes !! j <> Some node) ->
      locks dm !! i = Some b ->
      hasLock nodes dm node = Ok b).
Proof.
  split.
  - apply hasLock_range_absent.
  - intros i b Hi Hfirst Hb. now apply (hasLock_range_first 0 nodes _ node i b).
Qed.

Lemma hasLock_first_match_witness :
  hasLock ["a"; "b"; "c"; "b"]
          {| Name := "L"; locks := [true; false; true; true];
             clnts := @None (list (@Client unit)) |} "b" = Ok false /\
  hasLock ["a"; "b"; "c"; "b"]
          {| Name := "L"; locks := [true; false; true; true];
             clnts := @None (list (@Client unit)) |} "z" = Ok false.
Proof.
  split.
  - apply (proj2 (hasLock_first_match ["a"; "b"; "c"; "b"] _ "b") 1%nat false).
    + reflexivity.
    + intros j Hj. assert (j = 0%nat) as -> by lia. discriminate.
    + reflexivity.
  - apply (proj1 (hasLock_first_match ["a"; "b"; "c"; "b"] _ "z")).
    simpl. intros [H|[H|[H|[H|[]]]]]; discriminate.
Defined.

(** On a grant vector shorter than the node list (a mutex that was never
    locked) the lookup for a configured node is out of range. *)
Lemma hasLock_unlocked_panics {Conn : Type} (node : string)
    (rest : list string) (name : string) :
  hasLock (node :: rest) (@newDMutex Conn name) node = Panic index_out_of_range.
Proof. unfold hasLock. simpl. now rewrite String.eqb_refl. Qed.

(** ** releaseAll *)

Section Release.

Context {Conn : Type}.
Implicit Types (clnts : list (@Client Conn)) (grants : list bool).

Lemma releaseAll_loop_released (todo lock : nat) clnts grants name grants' sent :
  releaseAll_loop todo lock clnts grants name = Ok (grants', sent) ->
  released lock todo clnts grants name grants' sent.
Proof.
  revert lock grants grants' sent.
  induction todo as [|todo IH]; intros lock grants grants' sent H; simpl in H.
  - injection H as <- <-. split; [reflexivity |]. split; [| split].
    + intros j. case_decide; [lia | reflexivity].
    + intros k c nm. split; [intros [] | intros (_ & Hk & _); lia].
    + intros ms [].
  - destruct (grants !! lock) as [[|]|] eqn:Hlock; [| | discriminate].
    + destruct (clnts !! lock) as [c|] eqn:Hc; [| discriminate].
      inv_bind H. destruct a as [grants0 sent0]. injection H as <- <-.
      apply IH in Ha. destruct Ha as (Hlen & Hget & Hsent & Hsleep).
      rewrite length_insert in Hlen.
      pose proof (lookup_lt_Some _ _ _ Hlock) as Hlt.
      split; [exact Hlen |]. split; [| split].
      * intros j. rewrite Hget. repeat case_decide; try lia; try reflexivity.
        -- assert (j = lock) as -> by lia. now apply list_lookup_insert_eq.
        -- apply list_lookup_insert_ne. lia.
      * intros k c' nm. split.
        -- intros [H|H].
           ++ injection H as <- <- <-. repeat split; try assumption; lia.
           ++ apply Hsent in H. destruct H as (-> & Hk & Hkc & Hkt).
              rewrite list_lookup_insert_ne in Hkt by lia.
              repeat split; try assumption; lia.
        -- intros (-> & Hk & Hkc & Hkt).
           destruct (decide (k = lock)) as [->|Hne].
           ++ left. congruence.
           ++ right. apply Hsent. repeat split; try lia; try assumption.
              rewrite list_lookup_insert_ne by lia. exact Hkt.
      * intros ms [H|H]; [discriminate | now apply (Hsleep ms)].
    + apply IH in H. destruct H as (Hlen & Hget & Hsent & Hsleep).
      split; [exact Hlen |]. split; [| split].
      * intros j. rewrite Hget. repeat case_decide; try lia; try reflexivity.
        assert (j = lock) as -> by lia. now symmetry.
      * intros k c nm. rewrite Hsent. split.
        -- intros (-> & Hk & Hkc & Hkt). repeat split; try assumption; lia.
        -- intros (-> & Hk & Hkc & Hkt). repeat split; try assumption; try lia.
           destruct (decide (k = lock)) as [->|Hne]; [congruence | lia].
      * exact Hsleep.
Qed.

Lemma releaseAll_loop_total (todo lock : nat) clnts grants name :
  (lock + todo <= length grants)%nat -> (lock + todo <= length clnts)%nat ->
  exists r, releaseAll_loop todo lock clnts grants name = Ok r.
Proof.
  revert lock grants.
  induction todo as [|todo IH]; intros lock grants Hg Hc; simpl; [eauto |].
  destruct (lookup_lt_is_Some_2 grants lock) as [b ->]; [lia |].
  destruct (lookup_lt_is_Some_2 clnts lock) as [c ->]; [lia |].
  destruct b.
  - destruct (IH (S lock) (<[lock:=false]> grants)) as [[g s] ->];
      [rewrite length_insert; lia | lia |].
    simpl. eauto.
  - apply IH; lia.
Qed.

(** The loop of [Unlock] over [dm.clnts] is the loop of [releaseAll] over
    as many indices. *)
Lemma Unlock_range_releaseAll_loop (pad cs : list (@Client Conn)) grants name :
  Unlock_range (length pad) cs grants name =
  releaseAll_loop (length cs) (length pad) (pad ++ cs) grants name.
Proof.
  revert pad grants. induction cs as [|c cs IH]; intros pad grants; simpl.
  - reflexivity.
  - rewrite lookup_app_r, Nat.sub_diag by lia. simpl.
    pose proof (IH (pad ++ [c])) as IH'.
    rewrite length_app, Nat.add_1_r, <- app_assoc in IH'. simpl in IH'.
    destruct (grants !! length pad) as [[|]|]; [| | reflexivity].
    + now rewrite IH'.
    + apply IH'.
Qed.

End Release.

(** ** Unlock *)

Section UnlockProps.

Context {Conn : Type}.
Variable n : Z.
Implicit Types (dm : @DMutex Conn).

Lemma DMutex_ok_inv dm :
  DMutex_ok n dm = true ->
  locks dm = [] \/
  (Z.of_nat (length (locks dm)) = n /\
   exists cs, clnts dm = Some cs /\ length cs = length (locks dm)).
Proof.
  unfold DMutex_ok. destruct (clnts dm) as [cs|].
  - rewrite andb_true_iff, orb_true_iff, bool_decide_eq_true.
    intros (Hcs & [Hnil|Hlen]); [now left | right].
    apply Z.eqb_eq in Hcs, Hlen. split; [exact Hlen |].
    exists cs. split; [reflexivity | lia].
  - rewrite bool_decide_eq_true. now left.
Qed.

Lemma DMutex_ok_new (name : string) : DMutex_ok n (@newDMutex Conn name) = true.
Proof. reflexivity. Qed.

(** On a well-formed mutex [dm.locked()] is [quorumMet] of the stored
    vector. *)
Lemma DMutex_locked_ok dm :
  0 <= n -> DMutex_ok n dm = true ->
  DMutex_locked n dm = Ok (quorumMet n (locks dm)).
Proof.
  intros Hn Hok. unfold DMutex_locked. rewrite make_nonneg by exact Hn. simpl.
  f_equal. destruct (DMutex_ok_inv dm Hok) as [Hnil|(Hlen & _)].
  - rewrite Hnil, copy_nil, quorumMet_replicate_false by exact Hn.
    symmetry. exact (quorumMet_replicate_false n 0 Hn).
  - rewrite copy_same_length; [reflexivity |]. rewrite length_replicate. lia.
Qed.

Lemma quorumMet_nonempty (grants : list bool) :
  0 <= n -> quorumMet n grants = true -> grants <> [].
Proof.
  intros Hn Hq ->. rewrite quorumMet_true in Hq.
  rewrite Z.quot_div_nonneg in Hq by lia.
  pose proof (Z.div_pos n 2 Hn). change (true_entries []) with 0 in Hq. lia.
Qed.

(** The run of [Unlock] on a well-formed mutex that holds the quorum. *)
Lemma Unlock_held dm :
  0 <= n -> DMutex_ok n dm = true -> quorumMet n (locks dm) = true ->
  exists grants' sent,
    Unlock n dm =
      Ok ({| Name := Name dm; locks := grants'; clnts := clnts dm |}, sent) /\
    released 0 (length (locks dm)) (clients dm) (locks dm) (Name dm)
             grants' sent.
Proof.
  intros Hn Hok Hq. unfold Unlock. rewrite (DMutex_locked_ok dm Hn Hok), Hq.
  simpl. destruct (DMutex_ok_inv dm Hok) as [Hnil|(Hlen & cs & Hcs & Hlcs)].
  - now apply quorumMet_nonempty in Hq.
  - unfold clients. rewrite Hcs. simpl.
    rewrite (Unlock_range_releaseAll_loop [] cs). simpl. rewrite Hlcs.
    destruct (releaseAll_loop_total (length (locks dm)) 0 cs (locks dm) (Name dm))
      as [[grants' sent] Hrun]; [lia | lia |].
    rewrite Hrun. simpl. exists grants', sent. split; [reflexivity |].
    now apply releaseAll_loop_released.
Qed.

Lemma Unlock_Ok_inv dm dm' sent :
  DMutex_ok n dm = true -> Unlock n dm = Ok (dm', sent) ->
  0 <= n /\ quorumMet n (locks dm) = true.
Proof.
  intros Hok H. unfold Unlock in H. inv_bind H.
  assert (Hn : 0 <= n).
  { unfold DMutex_locked in Ha. inv_bind Ha. now apply make_Ok in Ha0. }
  split; [exact Hn |]. rewrite (DMutex_locked_ok dm Hn Hok) in Ha.
  injection Ha as ->. now destruct a.
Qed.

Lemma released_all_false (grants grants' : list bool)
    (clnts : list (@Client Conn)) name sent :
  released 0 (length grants) clnts grants name grants' sent ->
  grants' = replicate (length grants) false.
Proof.
  intros (Hlen & Hget & _). rewrite <- Hlen. apply all_false_replicate.
  intros k. rewrite Hget. case_decide; [discriminate |].
  rewrite lookup_ge_None_2 by lia. discriminate.
Qed.

End UnlockProps.

(** C4: on a well-formed mutex whose stored vector meets the quorum,
    [Unlock] returns, and for every index [i] that was marked true a
    release has been dispatched to [clients[i]] under the mutex name and
    entry [i] is false afterwards.  The releases are dispatches only: no
    reply of a peer is an input of [Unlock]. *)
Theorem Unlock_dispatches_and_clears {Conn : Type} (n : Z) (dm : @DMutex Conn) :
  0 <= n -> DMutex_ok n dm = true -> quorumMet n (locks dm) = true ->
  exists dm' sent,
    Unlock n dm = Ok (dm', sent) /\
    Name dm' = Name dm /\ clnts dm' = clnts dm /\
    forall i, locks dm !! i = Some true ->
      exists c, clients dm !! i = Some c /\
                In (SendRelease i c (Name dm)) sent /\
                locks dm' !! i = Some false.
Proof.
  intros Hn Hok Hq.
  destruct (Unlock_held n dm Hn Hok Hq) as (grants' & sent & Hrun & Hrel).
  eexists _, sent. split; [exact Hrun |]. simpl. split; [reflexivity |].
  split; [reflexivity |]. intros i Hi.
  pose proof (lookup_lt_Some _ _ _ Hi) as Hlt.
  destruct (DMutex_ok_inv n dm Hok) as [Hnil|(_ & cs & Hcs & Hlcs)].
  { rewrite Hnil in Hi. discriminate. }
  destruct (lookup_lt_is_Some_2 (clients dm) i) as [c Hc].
  { unfold clients. rewrite Hcs. simpl. lia. }
  destruct Hrel as (_ & Hget & Hsent & _).
  exists c. split; [exact Hc |]. split.
  - apply Hsent. repeat split; try assumption; lia.
  - rewrite Hget. case_decide; [reflexivity | lia].
Qed.

Lemma Unlock_dispatches_and_clears_witness :
  exists dm' sent,
    Unlock 3 {| Name := "L"; locks := [true; false; true];
                clnts := Some [Some 7%nat; None; Some 9%nat] |}
      = Ok (dm', sent) /\
    sent = [SendRelease 0 (Some 7%nat) "L"; SendRelease 2 (Some 9%nat) "L"] /\
    locks dm' = [false; false; false].
Proof.
  destruct (Unlock_dispatches_and_clears 3
              {| Name := "L"; locks := [true; false; true];
                 clnts := Some [Some 7%nat; None; Some 9%nat] |})
    as (dm' & sent & Hrun & _); [lia | reflexivity | reflexivity |].
  exists dm', sent. split; [exact Hrun |].
  vm_compute in Hrun. injection Hrun as <- <-. split; reflexivity.
Defined.

(** Below the quorum, [Unlock] stops at its first check. *)
Lemma Unlock_below_quorum {Conn : Type} (n : Z) (dm : @DMutex Conn) :
  0 <= n -> DMutex_ok n dm = true -> true_entries (locks dm) < n / 2 + 1 ->
  Unlock n dm = Panic unlock_of_unlocked.
Proof.
  intros Hn Hok Hlt. unfold Unlock. rewrite (DMutex_locked_ok n dm Hn Hok).
  destruct (quorumMet n (locks dm)) eqn:Hq; [| reflexivity].
  apply quorumMet_true in Hq. rewrite Z.quot_div_nonneg in Hq by lia. lia.
Qed.

Lemma Unlock_new_below_quorum {Conn : Type} (n : Z) (name : string) :
  0 <= n -> Unlock n (@newDMutex Conn name) = Panic unlock_of_unlocked.
Proof.
  intros Hn. apply Unlock_below_quorum; [exact Hn | reflexivity |].
  change (true_entries (locks (newDMutex name))) with 0.
  pose proof (Z.div_pos n 2 Hn). lia.
Qed.

(** A fresh mutex panics in [Unlock] whatever [n] is: for a negative [n]
    already in the [make] of [locked]. *)
Lemma Unlock_new_panics {Conn : Type} (n : Z) (name : string) :
  exists msg, Unlock n (@newDMutex Conn name) = Panic msg.
Proof.
  destruct (Z.lt_ge_cases n 0) as [Hneg|Hn].
  - exists makeslice_len. unfold Unlock, DMutex_locked, make.
    destruct (Z.ltb_spec n 0); [reflexivity | lia].
  - exists unlock_of_unlocked. now apply Unlock_new_below_quorum.
Qed.

(** C5: on a well-formed mutex of a cluster of [n >= 0] peers, [Unlock]
    panics exactly when the stored vector has fewer than [floor(n/2) + 1]
    true entries, and the panic is the unlock-of-unlocked one; [Unlock] on a
    mutex that was never locked panics. *)
Theorem Unlock_panics_iff_below_quorum {Conn : Type} (n : Z) (dm : @DMutex Conn) :
  0 <= n -> DMutex_ok n dm = true ->
  ((exists msg, Unlock n dm = Panic msg) <->
   true_entries (locks dm) < n / 2 + 1) /\
  (Unlock n dm = Panic unlock_of_unlocked <->
   true_entries (locks dm) < n / 2 + 1) /\
  (forall name, Unlock n (@newDMutex Conn name) = Panic unlock_of_unlocked).
Proof.
  intros Hn Hok.
  assert (Hheld : forall msg, Unlock n dm = Panic msg ->
                              true_entries (locks dm) < n / 2 + 1).
  { intros msg Hp. destruct (quorumMet n (locks dm)) eqn:Hq.
    - destruct (Unlock_held n dm Hn Hok Hq) as (g & s & Hrun & _). congruence.
    - apply not_true_iff_false in Hq. rewrite quorumMet_true in Hq.
      rewrite Z.quot_div_nonneg in Hq by lia. lia. }
  pose proof (Unlock_below_quorum n dm Hn Hok) as Hbelow.
  split; [| split].
  - split; [intros [msg Hp]; eauto | intros Hlt; eauto].
  - split; [apply Hheld | exact Hbelow].
  - intros name. now apply Unlock_new_below_quorum.
Qed.

Lemma Unlock_panics_iff_below_quorum_witness :
  Unlock 3 {| Name := "L"; locks := [true; false; false];
              clnts := Some [Some 7%nat; None; Some 9%nat] |}
    = Panic unlock_of_unlocked /\
  Unlock 3 (@newDMutex nat "L") = Panic unlock_of_unlocked.
Proof.
  pose proof (Unlock_panics_iff_below_quorum 3
                {| Name := "L"; locks := [true; false; false];
                   clnts := Some [Some 7%nat; None; Some 9%nat] |}
                ltac:(lia) eq_refl) as (_ & Hiff & Hnew).
  split; [| apply Hnew]. apply Hiff. vm_compute. reflexivity.
Defined.

(** C9: when [Unlock] returns on a well-formed mutex, no entry of the
    stored vector is true (all [n] entries are false), and a second
    [Unlock] on the resulting mutex panics. *)
Theorem Unlock_twice_panics {Conn : Type} (n : Z) (dm dm' : @DMutex Conn)
    (sent : list effect) :
  DMutex_ok n dm = true -> Unlock n dm = Ok (dm', sent) ->
  locks dm' = replicate (Z.to_nat n) false /\
  (forall k, locks dm' !! k <> Some true) /\
  DMutex_ok n dm' = true /\
  Unlock n dm' = Panic unlock_of_unlocked.
Proof.
  intros Hok Hrun.
  destruct (Unlock_Ok_inv n dm dm' sent Hok Hrun) as [Hn Hq].
  destruct (Unlock_held n dm Hn Hok Hq) as (g & s & Hrun' & Hrel).
  rewrite Hrun in Hrun'. injection Hrun' as -> ->.
  apply released_all_false in Hrel.
  destruct (DMutex_ok_inv n dm Hok) as [Hnil|(Hlen & cs & Hcs & Hlcs)].
  { now apply (quorumMet_nonempty n _ Hn) in Hq. }
  assert (Hg : g = replicate (Z.to_nat n) false).
  { rewrite Hrel. f_equal. lia. }
  assert (Hok' : DMutex_ok n {| Name := Name dm; locks := g; clnts := clnts dm |}
                 = true).
  { unfold DMutex_ok. simpl. rewrite Hcs, Hg, length_replicate.
    apply andb_true_iff. split; [apply Z.eqb_eq; lia |].
    apply orb_true_iff. right. apply Z.eqb_eq. lia. }
  simpl. split; [exact Hg |]. split; [| split; [exact Hok' |]].
  - intros k. rewrite Hg. intros Hk. apply lookup_replicate in Hk.
    destruct Hk as [Hk _]. discriminate.
  - apply Unlock_below_quorum; [exact Hn | exact Hok' |]. simpl.
    rewrite Hg, true_entries_replicate_false.
    pose proof (Z.div_pos n 2 Hn). lia.
Qed.

Lemma Unlock_twice_panics_witness :
  locks {| Name := "L"; locks := [false; false; false];
           clnts := Some [Some 7%nat; None; Some 9%nat] |}
    = replicate (Z.to_nat 3) false /\
  Unlock 3 {| Name := "L"; locks := [false; false; false];
              clnts := Some [Some 7%nat; None; Some 9%nat] |}
    = Panic unlock_of_unlocked.
Proof.
  pose proof (Unlock_twice_panics 3
                {| Name := "L"; locks := [true; true; false];
                   clnts := Some [Some 7%nat; None; Some 9%nat] |}
                {| Name := "L"; locks := [false; false; false];
                   clnts := Some [Some 7%nat; None; Some 9%nat] |}
                [SendRelease 0 (Some 7%nat) "L"; SendRelease 1 None "L"]
                eq_refl eq_refl) as (H1 & _ & _ & H2).
  split; [exact H1 | exact H2].
Defined.

(** ** One attempt: the decision loop *)

Section Attempt.

Context {Conn : Type}.
Variable n : Z.
Implicit Types (clnts : list (@Client Conn)) (grants : list bool)
  (replies pending : list Granted) (st : @coord Conn).

Lemma releaseAll_released clnts grants name grants' sent :
  releaseAll n clnts grants name = Ok (grants', sent) ->
  released 0 (Z.to_nat n) clnts grants name grants' sent.
Proof. apply releaseAll_loop_released. Qed.

Lemma releaseAll_total clnts grants name :
  Z.of_nat (length grants) = n -> Z.of_nat (length clnts) = n ->
  exists grants' sent,
    releaseAll n clnts grants name = Ok (grants', sent) /\
    grants' = replicate (Z.to_nat n) false.
Proof.
  intros Hg Hc.
  destruct (releaseAll_loop_total (Z.to_nat n) 0 clnts grants name)
    as [[grants' sent] Hrun]; [lia | lia |].
  exists grants', sent. split; [exact Hrun |].
  apply releaseAll_released in Hrun.
  replace (Z.to_nat n) with (length grants) in * by lia.
  now apply released_all_false in Hrun.
Qed.

Lemma decided_break_release clnts name i grants sent seen pending grants' rel :
  releaseAll n clnts grants name = Ok (grants', rel) ->
  (length seen <= 1)%nat ->
  decided clnts name i grants sent (seen ++ pending)
          {| c_i := i; c_locks := grants'; c_sent := sent ++ rel |} pending.
Proof.
  intros Hrel Hseen. apply releaseAll_released in Hrel.
  destruct Hrel as (Hlen & Hget & Hsent & Hsleep).
  exists seen, rel. simpl. split; [reflexivity |]. split; [lia |].
  split; [exact Hlen |]. split; [reflexivity |]. split; [| split].
  - intros k Hk. left. rewrite Hget in Hk. now case_decide.
  - intros k c nm Hin. apply Hsent in Hin.
    destruct Hin as (-> & _ & Hc & Hk). split; [reflexivity |].
    split; [exact Hc | now left].
  - exact Hsleep.
Qed.

Lemma decided_stay clnts name i grants sent pending :
  decided clnts name i grants sent pending
          {| c_i := i; c_locks := grants; c_sent := sent |} pending.
Proof.
  exists [], []. simpl. split; [reflexivity |]. split; [lia |].
  split; [reflexivity |]. split; [now rewrite app_nil_r |].
  split; [| split].
  - intros k Hk. now left.
  - intros k c nm [].
  - intros ms [].
Qed.

Lemma timed_out_decided clnts name i grants sent pending st pending' :
  timed_out n clnts name i grants sent pending = Ok (st, pending') ->
  decided clnts name i grants sent pending st pending'.
Proof.
  unfold timed_out. destruct (quorumMet n grants); simpl.
  - intros [= <- <-]. apply decided_stay.
  - intros H. inv_bind H. destruct a as [grants' rel]. injection H as <- <-.
    apply (decided_break_release clnts name i grants sent []);
      [exact Ha | simpl; lia].
Qed.

Lemma decision_decided clnts name timer i grants sent replies st pending :
  decision n clnts name timer i grants sent replies = Ok (st, pending) ->
  decided clnts name i grants sent replies st pending.
Proof.
  revert timer i grants.
  induction replies as [|grant replies IH]; intros timer i grants H.
  - destruct timer; simpl in H; destruct (i <? n);
      try (injection H as <- <-; apply decided_stay);
      now apply timed_out_decided.
  - destruct timer as [|timer]; simpl in H; destruct (i <? n);
      try (injection H as <- <-; apply decided_stay);
      try (now apply timed_out_decided).
    destruct grant as [k [|]]; simpl in H.
    + destruct (grants !! k) as [b|] eqn:Hk; [| discriminate].
      apply IH in H.
      destruct H as (seen & rel & -> & Hi & Hlen & Hsent & Hget & Hrel & Hsl).
      rewrite length_insert in Hlen.
      assert (Hback : forall j, granted_by (<[k:=true]> grants) seen j ->
                                granted_by grants (grant_of k :: seen) j).
      { intros j [Hj|Hj]; [| right; now right].
        destruct (decide (j = k)) as [->|Hne]; [right; now left |].
        left. now rewrite list_lookup_insert_ne in Hj by congruence. }
      exists (grant_of k :: seen), rel. simpl.
      split; [reflexivity |]. split; [lia |]. split; [exact Hlen |].
      split; [exact Hsent |]. split; [| split; [| exact Hsl]].
      * intros j Hj. auto.
      * intros j c nm Hin. destruct (Hrel j c nm Hin) as (? & ? & ?). auto.
    + inv_bind H. destruct a as [grants' rel]. injection H as <- <-.
      apply (decided_break_release clnts name i grants sent
               [{| index := k; locked := false |}]);
        [exact Ha | simpl; lia].
Qed.

End Attempt.

Section Abort.

Context {Conn : Type}.
Variable n : Z.
Implicit Types (clnts : list (@Client Conn)) (grants : list bool)
  (pre post : list Granted).

Lemma marked_length pre grants : length (marked pre grants) = length grants.
Proof.
  revert grants. induction pre as [|g pre IH]; intros grants; simpl;
    [reflexivity |].
  unfold marked in IH. now rewrite IH, length_insert.
Qed.

Lemma marked_lookup pre grants (k : nat) :
  Forall (fun g => locked g = true /\ (index g < length grants)%nat) pre ->
  marked pre grants !! k = Some true <->
  grants !! k = Some true \/ In k (map index pre).
Proof.
  revert grants. induction pre as [|g pre IH]; intros grants Hpre; simpl.
  - tauto.
  - apply Forall_cons in Hpre. destruct Hpre as [[_ Hg] Hpre].
    unfold marked in IH. rewrite IH.
    2:{ eapply Forall_impl; [exact Hpre |]. simpl. intros x.
        now rewrite length_insert. }
    destruct (decide (k = index g)) as [->|Hne].
    + rewrite list_lookup_insert_eq by exact Hg. tauto.
    + rewrite list_lookup_insert_ne by congruence.
      split; [intros [?|?]; auto | intros [?|[?|?]]; auto; congruence].
Qed.

(** While grants arrive ahead of the timer and [i] stays below [n], the
    decision loop marks them and goes on. *)
Lemma decision_grants clnts name pre : forall timer i grants sent post,
  Forall (fun g => locked g = true /\ (index g < length grants)%nat) pre ->
  i + Z.of_nat (length pre) <= n ->
  decision n clnts name (length pre + timer) i grants sent (pre ++ post) =
  decision n clnts name timer (i + Z.of_nat (length pre)) (marked pre grants)
           sent post.
Proof.
  induction pre as [|g pre IH]; intros timer i grants sent post Hpre Hi.
  - simpl. now rewrite Z.add_0_r.
  - apply Forall_cons in Hpre. destruct Hpre as [[Hl Hg] Hpre].
    simpl length in *. simpl.
    destruct (Z.ltb_spec i n) as [_|?]; [| lia]. rewrite Hl.
    destruct (lookup_lt_is_Some_2 grants (index g) Hg) as [b ->].
    rewrite IH.
    + f_equal. lia.
    + eapply Forall_impl; [exact Hpre |]. simpl. intros x.
      now rewrite length_insert.
    + lia.
Qed.

(** A refusal received inside the loop: release what is marked, break. *)
Lemma decision_refusal clnts name timer i grants sent neg post :
  i < n -> locked neg = false ->
  decision n clnts name (S timer) i grants sent (neg :: post) =
  '(grants', rel) ← releaseAll n clnts grants name;
  Ok ({| c_i := i; c_locks := grants'; c_sent := sent ++ rel |}, post).
Proof.
  intros Hi Hneg. simpl. destruct (Z.ltb_spec i n) as [_|?]; [| lia].
  now rewrite Hneg.
Qed.

End Abort.

(** C3: a refusal ([locked = false]) received in the decision loop, after
    any grants [pre], loses the attempt: the loop stops there with the
    counter at [length pre] and all later replies [post] left to the drain
    loop, whatever they are; a release has been dispatched to exactly the
    peers marked at that moment; the vector is all false; [lock] answers
    false. *)
Theorem lock_refusal_aborts {Conn : Type} (n : Z) (clnts : list (@Client Conn))
    (grants : list bool) (name : string) (timer : nat)
    (pre : list Granted) (neg : Granted) (post : list Granted) :
  Z.of_nat (length grants) = n -> Z.of_nat (length clnts) = n ->
  Forall (fun g => locked g = true /\ (index g < length grants)%nat) pre ->
  locked neg = false ->
  (length pre < timer)%nat -> Z.of_nat (length pre) < n ->
  exists st,
    lock n clnts grants name timer (pre ++ neg :: post) = Ok (false, st, post) /\
    c_i st = Z.of_nat (length pre) /\
    c_locks st = replicate (Z.to_nat n) false /\
    (forall k c nm,
        In (SendRelease k c nm) (c_sent st) <->
        nm = name /\ clnts !! k = Some c /\
        (grants !! k = Some true \/ In k (map index pre))) /\
    (forall ms, ~ In (Sleep ms) (c_sent st)).
Proof.
  intros Hg Hc Hpre Hneg Htimer Hlen.
  destruct (releaseAll_total n clnts (marked pre grants) name)
    as (grants' & rel & Hrun & Hfalse);
    [now rewrite marked_length | exact Hc |].
  exists {| c_i := Z.of_nat (length pre); c_locks := grants';
            c_sent := rel |}.
  split; [| split; [reflexivity | split; [exact Hfalse | simpl]]].
  - unfold lock.
    replace timer with (length pre + S (timer - S (length pre)))%nat by lia.
    rewrite decision_grants by (assumption || lia).
    rewrite decision_refusal by (assumption || lia).
    rewrite Hrun. simpl. rewrite Hfalse.
    now rewrite quorumMet_replicate_false by lia.
  - apply releaseAll_released in Hrun.
    destruct Hrun as (_ & _ & Hsent & Hsleep). split; [| exact Hsleep].
    intros k c nm. rewrite Hsent, (marked_lookup pre grants k Hpre).
    split; [tauto |]. intros (-> & Hk & Hm). repeat split; try assumption.
    + lia.
    + apply lookup_lt_Some in Hk. lia.
Qed.

Lemma lock_refusal_aborts_witness :
  exists st,
    lock 3 [Some 7%nat; Some 8%nat; Some 9%nat] [false; false; false] "L" 5
         ([{| index := 2; locked := true |}] ++
          {| index := 0; locked := false |} ::
          [{| index := 1; locked := true |}])
      = Ok (false, st, [{| index := 1; locked := true |}]) /\
    c_locks st = [false; false; false] /\
    c_sent st = [SendRelease 2 (Some 9%nat) "L"].
Proof.
  destruct (lock_refusal_aborts 3 [Some 7%nat; Some 8%nat; Some 9%nat]
              [false; false; false] "L" 5
              [{| index := 2; locked := true |}]
              {| index := 0; locked := false |}
              [{| index := 1; locked := true |}])
    as (st & Hrun & _);
    [reflexivity | reflexivity
     | repeat constructor | reflexivity | simpl; lia | simpl; lia |].
  exists st. split; [exact Hrun |].
  vm_compute in Hrun. injection Hrun as <-. split; reflexivity.
Defined.

(** ** One attempt: the drain loop *)

Section Drain.

Context {Conn : Type}.
Variable n : Z.
Implicit Types (clnts : list (@Client Conn)) (pending : list Granted)
  (st : @coord Conn).

Lemma late_releases_In clnts name pending k c nm :
  In (SendRelease k c nm) (late_releases clnts name pending) <->
  nm = name /\ clnts !! k = Some c /\ In (grant_of k) pending.
Proof.
  unfold late_releases. rewrite in_flat_map. split.
  - intros ([j [|]] & Hin & H); simpl in H; [| destruct H].
    destruct (clnts !! j) as [c'|] eqn:Hc; [| destruct H].
    destruct H as [H|[]]. injection H as <- <- <-. auto.
  - intros (-> & Hc & Hin). exists (grant_of k). split; [exact Hin |].
    simpl. rewrite Hc. now left.
Qed.

Lemma late_releases_no_sleep clnts name pending ms :
  ~ In (Sleep ms) (late_releases clnts name pending).
Proof.
  unfold late_releases. rewrite in_flat_map.
  intros ([j [|]] & _ & H); simpl in H; [| destruct H].
  destruct (clnts !! j); [destruct H as [H|[]]; discriminate | destruct H].
Qed.

(** The drain loop leaves the vector alone and only releases late
    grants: those among the first [k] replies it gets to receive. *)
Lemma drain_frame clnts name pending : forall st st',
  drain n clnts name st pending = Ok st' ->
  c_locks st' = c_locks st /\
  exists k, c_sent st' = c_sent st ++ late_releases clnts name (take k pending).
Proof.
  induction pending as [|g pending IH]; intros st st' H; simpl in H.
  - assert (st' = st) as -> by (destruct (c_i st <? n); congruence).
    split; [reflexivity |]. exists 0%nat. now rewrite app_nil_r.
  - destruct (c_i st <? n).
    2:{ injection H as <-. split; [reflexivity |]. exists 0%nat.
        now rewrite app_nil_r. }
    destruct g as [j [|]]; simpl in H.
    + destruct (clnts !! j) as [c|] eqn:Hc; [| discriminate].
      apply IH in H. simpl in H. destruct H as [Hl [k Hs]].
      split; [exact Hl |]. exists (S k). rewrite Hs, <- app_assoc.
      simpl. now rewrite Hc.
    + apply IH in H. simpl in H. destruct H as [Hl [k Hs]].
      split; [exact Hl |]. exists (S k). now rewrite Hs.
Qed.

(** With room for every pending reply before [i] reaches [n], the drain
    loop receives them all. *)
Lemma drain_all clnts name pending : forall st,
  Forall (fun g => (index g < length clnts)%nat) pending ->
  c_i st + Z.of_nat (length pending) <= n ->
  drain n clnts name st pending =
  Ok {| c_i := c_i st + Z.of_nat (length pending);
        c_locks := c_locks st;
        c_sent := c_sent st ++ late_releases clnts name pending |}.
Proof.
  induction pending as [|g pending IH]; intros st Hidx Hroom.
  - simpl. rewrite Z.add_0_r, app_nil_r.
    destruct st; simpl; now destruct (_ <? _).
  - apply Forall_cons in Hidx. destruct Hidx as [Hg Hidx].
    simpl length in *. simpl.
    destruct (Z.ltb_spec (c_i st) n) as [_|?]; [| lia].
    destruct (lookup_lt_is_Some_2 clnts (index g) Hg) as [c Hc].
    destruct (locked g); [rewrite Hc |]; rewrite IH by (assumption || simpl; lia);
      simpl; f_equal; f_equal; try lia.
    now rewrite <- app_assoc.
Qed.

(** Replies come from distinct peers of the pool: there are at most as
    many as the pool has slots. *)
Lemma distinct_replies_bound clnts (replies : list Granted) :
  NoDup (map index replies) ->
  Forall (fun g => (index g < length clnts)%nat) replies ->
  (length replies <= length clnts)%nat.
Proof.
  intros Hnd Hidx. rewrite <- (length_map index replies).
  apply NoDup_ListNoDup in Hnd.
  pose proof (NoDup_incl_length (l' := seq 0 (length clnts)) Hnd) as Hle.
  rewrite length_seq in Hle. apply Hle.
  intros k Hk. apply in_map_iff in Hk. destruct Hk as (g & <- & Hg).
  rewrite Forall_forall in Hidx. apply in_seq.
  pose proof (Hidx g (proj2 (list_elem_of_In _ _) Hg)). lia.
Qed.

End Drain.

(** C2: in an attempt over a pool of [n] clients whose replies come from
    distinct peers of the pool, whether [lock] answered true or false: the
    drain loop receives every reply [pending] at the decision point, leaves
    the grant vector as it was at the decision point, and dispatches a
    release for each pending reply with [locked = true] (and nothing
    else). *)
Theorem drain_freezes_and_releases {Conn : Type} (n : Z)
    (clnts : list (@Client Conn)) (grants : list bool) (name : string)
    (timer : nat) (replies : list Granted) (quorum : bool)
    (st : coord) (pending : list Granted) :
  Z.of_nat (length clnts) = n ->
  NoDup (map index replies) ->
  Forall (fun g => (index g < length clnts)%nat) replies ->
  lock n clnts grants name timer replies = Ok (quorum, st, pending) ->
  exists st',
    drain n clnts name st pending = Ok st' /\
    (exists seen, replies = seen ++ pending) /\
    c_locks st' = c_locks st /\
    c_sent st' = c_sent st ++ late_releases clnts name pending /\
    (forall g, In g pending -> locked g = true ->
       exists c, clnts !! index g = Some c /\
                 In (SendRelease (index g) c name) (c_sent st')).
Proof.
  intros Hc Hnd Hidx Hlock. unfold lock in Hlock. inv_bind Hlock.
  destruct a as [st0 pending0]. injection Hlock as <- <- <-.
  apply decision_decided in Ha.
  destruct Ha as (seen & rel & Hsplit & Hi & _).
  pose proof (distinct_replies_bound clnts replies Hnd Hidx) as Hbound.
  rewrite Hsplit, length_app in Hbound. rewrite Hsplit in Hidx.
  apply Forall_app in Hidx. destruct Hidx as [_ Hidx].
  eexists. split; [apply drain_all; [exact Hidx | lia] |]. simpl.
  split; [now exists seen |]. split; [reflexivity |]. split; [reflexivity |].
  intros [k b] Hin Hb. simpl in *. subst b.
  rewrite Forall_forall in Hidx.
  pose proof (Hidx _ (proj2 (list_elem_of_In _ _) Hin)) as Hk. simpl in Hk.
  destruct (lookup_lt_is_Some_2 clnts k Hk) as [c Hkc].
  exists c. split; [exact Hkc |]. apply in_or_app. right.
  apply late_releases_In. auto.
Qed.

Lemma drain_freezes_and_releases_witness :
  exists st',
    drain 4 [Some 0%nat; Some 1%nat; Some 2%nat; Some 3%nat] "L"
          {| c_i := 3; c_locks := [true; true; true; false]; c_sent := [] |}
          [{| index := 3; locked := true |}] = Ok st' /\
    c_locks st' = [true; true; true; false] /\
    c_sent st' = [SendRelease 3 (Some 3%nat) "L"].
Proof.
  destruct (drain_freezes_and_releases 4
              [Some 0%nat; Some 1%nat; Some 2%nat; Some 3%nat]
              [false; false; false; false] "L" 3
              [{| index := 0; locked := true |};
               {| index := 1; locked := true |};
               {| index := 2; locked := true |};
               {| index := 3; locked := true |}]
              true
              {| c_i := 3; c_locks := [true; true; true; false];
                 c_sent := [] |}
              [{| index := 3; locked := true |}])
    as (st' & Hrun & _ & Hl & Hs & _).
  - reflexivity.
  - apply NoDup_ListNoDup. repeat constructor; simpl; intuition lia.
  - repeat constructor.
  - reflexivity.
  - exists st'. split; [exact Hrun |]. split; [exact Hl | exact Hs].
Defined.

(** ** Lock: one pass of the retry loop *)

Section LockProps.

Context {Conn : Type}.
Variable n : Z.
Variable nodes : list string.
Implicit Types (dm : @DMutex Conn) (r : @round Conn)
  (sent log : list (@effect Conn)).

Lemma connect_range_length dial (i : nat) (cs cs' : list (@Client Conn)) :
  connect_range nodes dial i cs = Ok cs' -> length cs' = length cs.
Proof.
  revert i cs'. induction cs as [|c cs IH]; intros i cs' H; simpl in H.
  - now injection H as <-.
  - inv_bind H. inv_bind H. injection H as <-. simpl. f_equal.
    now apply (IH (S i)).
Qed.

Lemma connectLazy_Ok dial dm dm1 :
  connectLazy n nodes dial dm = Ok dm1 ->
  Name dm1 = Name dm /\ locks dm1 = locks dm /\
  exists cs', clnts dm1 = Some cs' /\
    match clnts dm with
    | None => 0 <= n /\ length cs' = Z.to_nat n
    | Some cs => length cs' = length cs
    end.
Proof.
  unfold connectLazy. intros H. inv_bind H. inv_bind H. injection H as <-.
  simpl. split; [reflexivity |]. split; [reflexivity |].
  exists a0. split; [reflexivity |]. apply connect_range_length in Ha0.
  destruct (clnts dm) as [cs|].
  - injection Ha as <-. exact Ha0.
  - apply make_Ok in Ha. destruct Ha as [Hn ->].
    now rewrite length_replicate in Ha0.
Qed.

Lemma sent_by_nil r name : sent_by r name [].
Proof. split; [intros ms [] | intros k c nm []]. Qed.

Lemma granted_by_fresh (len : nat) (seen : list Granted) (k : nat) :
  granted_by (replicate len false) seen k -> In (grant_of k) seen.
Proof.
  intros [H|H]; [| exact H]. apply lookup_replicate in H.
  destruct H as [H _]. discriminate.
Qed.

(** [lock] on a fresh vector. *)
Lemma lock_fresh (clnts : list (@Client Conn)) name timer replies
    (quorum : bool) (st : @coord Conn) pending :
  lock n clnts (replicate (Z.to_nat n) false) name timer replies
    = Ok (quorum, st, pending) ->
  quorum = quorumMet n (c_locks st) /\
  length (c_locks st) = Z.to_nat n /\
  (exists seen, replies = seen ++ pending) /\
  (forall k, c_locks st !! k = Some true -> In (grant_of k) replies) /\
  (forall ms, ~ In (Sleep ms) (c_sent st)) /\
  (forall k c nm, In (SendRelease k c nm) (c_sent st) ->
                  nm = name /\ In (grant_of k) replies).
Proof.
  unfold lock. intros H. inv_bind H. destruct a as [st0 pending0].
  injection H as <- <- <-. apply decision_decided in Ha.
  destruct Ha as (seen & rel & -> & _ & Hlen & Hsent & Hget & Hrel & Hsl).
  rewrite length_replicate in Hlen. simpl in Hsent. rewrite Hsent.
  split; [reflexivity |]. split; [exact Hlen |]. split; [now exists seen |].
  split; [| split; [exact Hsl |]].
  - intros k Hk. apply in_or_app. left.
    eapply granted_by_fresh. now apply Hget.
  - intros k c nm Hin. destruct (Hrel k c nm Hin) as (-> & _ & Hg).
    split; [reflexivity |]. apply in_or_app. left.
    eapply granted_by_fresh. exact Hg.
Qed.

Lemma Lock_try_tried r dm : tried n r dm (Lock_try n nodes r dm).
Proof.
  unfold Lock_try.
  destruct (connectLazy n nodes (r_dial r) dm) as [dm1|msg] eqn:Hconn;
    [| apply sent_by_nil].
  apply connectLazy_Ok in Hconn.
  destruct Hconn as (Hname & Hlocks & cs & Hcs & Hlen).
  destruct (make false n) as [vector|msg] eqn:Hmake; [| apply sent_by_nil].
  apply make_Ok in Hmake. destruct Hmake as [Hn ->].
  assert (Hlen' : match clnts dm with
                  | None => length cs = Z.to_nat n
                  | Some cs0 => length cs = length cs0
                  end) by (destruct (clnts dm); tauto).
  unfold clients. rewrite Hcs, Hname. simpl.
  destruct (lock n cs _ (Name dm) (r_timer r) (r_replies r))
    as [[[quorum st] pending]|msg] eqn:Hlock; [| apply sent_by_nil].
  pose proof (lock_fresh _ _ _ _ _ _ _ Hlock)
    as (Hq & Hst & [seen Hseen] & _ & Hsl & Hrel).
  assert (Hsent : sent_by r (Name dm) (c_sent st)) by (split; assumption).
  destruct quorum; simpl.
  - split; [exact Hn |]. split; [reflexivity |]. split; [exact Hsent |].
    exists cs, st, pending. rewrite copy_same_length
      by (rewrite length_replicate; lia).
    repeat (split; [first [assumption | reflexivity | now symmetry] |]).
    reflexivity.
  - destruct (drain n cs (Name dm) st pending) as [st'|msg] eqn:Hdrain;
      [| exact Hsent].
    apply drain_frame in Hdrain. destruct Hdrain as [_ [k Hdrain]].
    split; [exact Hn |]. split; [exact Hname |]. split; [exact Hlocks |].
    split; [| now exists cs]. rewrite Hdrain. split.
    + intros ms Hin. apply in_app_or in Hin. destruct Hin as [Hin|Hin].
      * now apply (Hsl ms).
      * now apply late_releases_no_sleep in Hin.
    + intros j c nm Hin. apply in_app_or in Hin. destruct Hin as [Hin|Hin].
      * now apply (Hrel j c nm).
      * apply late_releases_In in Hin. destruct Hin as (-> & _ & Hin).
        split; [reflexivity |]. rewrite Hseen. apply in_or_app. right.
        apply list_elem_of_In. apply (subseteq_take k pending).
        apply list_elem_of_In. exact Hin.
Qed.

End LockProps.

(** ** Back-off *)

Lemma backoff_increment_bounds (runs m : Z) :
  valid_draw m -> 1 <= runs <= 10 ->
  0 <= backoff_increment runs m < 1024.
Proof.
  intros [Hm0 Hm] Hruns. unfold backoff_increment.
  assert (Hpow : 0 < 2 ^ runs <= 2 ^ 10).
  { split; [apply Z.pow_pos_nonneg; lia | apply Z.pow_le_mono_r; lia]. }
  change (2 ^ 10) with 1024 in Hpow. split.
  - apply Z.quot_pos; [nia | lia].
  - apply Z.quot_lt_upper_bound; [nia | lia | nia].
Qed.

Lemma backoff_step_bounds (runs backOff m : Z) :
  valid_draw m -> 1 <= runs <= 10 -> 0 <= backOff <= 1024 ->
  1 <= fst (backoff_step runs backOff m) <= 10 /\
  0 <= snd (backoff_step runs backOff m) <= 1024.
Proof.
  intros Hm Hruns Hb.
  pose proof (backoff_increment_bounds runs m Hm Hruns) as Hinc.
  unfold backoff_step.
  destruct (Z.gtb_spec (backOff + backoff_increment runs m) 1024) as [Hgt|Hle].
  - simpl. split; [lia |].
    pose proof (Z.rem_bound_pos (backOff + backoff_increment runs m) 64).
    lia.
  - destruct (Z.ltb_spec runs 10); simpl; lia.
Qed.

(** ** Lock: the retry loop *)

Section LockLoop.

Context {Conn : Type}.
Variable n : Z.
Variable nodes : list string.
Implicit Types (dm : @DMutex Conn) (sched : list (@round Conn))
  (log : list (@effect Conn)).

Lemma tried_ok (r : @round Conn) dm (a : @attempt Conn) :
  DMutex_ok n dm = true -> tried n r dm a ->
  match a with
  | Won dm' _ _ | Lost dm' _ => DMutex_ok n dm' = true
  | Died _ _ => True
  end.
Proof.
  intros Hok. unfold DMutex_ok in *.
  destruct a as [dm' sent bg|dm' sent|msg sent]; simpl; [| | trivial].
  - intros (Hn & _ & _ & cs & st & pending & -> & Hlen & _ & _ & Hst & -> & _).
    apply andb_true_iff. split; [| apply orb_true_iff; right; apply Z.eqb_eq; lia].
    apply Z.eqb_eq. destruct (clnts dm) as [cs0|]; [| lia].
    apply andb_true_iff in Hok. destruct Hok as [Hok _].
    apply Z.eqb_eq in Hok. lia.
  - intros (Hn & _ & -> & _ & cs & -> & Hlen).
    destruct (clnts dm) as [cs0|].
    + now rewrite Hlen.
    + apply bool_decide_eq_true in Hok. rewrite Hok. simpl.
      rewrite andb_true_r. apply Z.eqb_eq. lia.
Qed.

(** When the loop returns, some round of the schedule won. *)
Lemma Lock_loop_returned sched : forall dm runs backOff log dm' log' bg,
  Lock_loop n nodes sched dm runs backOff log = Returned dm' log' bg ->
  exists r dm0 sent,
    In r sched /\ Name dm0 = Name dm /\ tried n r dm0 (Won dm' sent bg) /\
    (DMutex_ok n dm = true -> DMutex_ok n dm' = true).
Proof.
  induction sched as [|r sched IH]; intros dm runs backOff log dm' log' bg H;
    simpl in H; [discriminate |].
  pose proof (Lock_try_tried n nodes r dm) as Htried.
  destruct (Lock_try n nodes r dm) as [dm1 sent bg1|dm1 sent|msg sent];
    [| | discriminate].
  - injection H as <- <- <-. exists r, dm, sent.
    split; [now left |]. split; [reflexivity |]. split; [exact Htried |].
    intros Hok. exact (tried_ok r dm _ Hok Htried).
  - destruct (backoff_step runs backOff (r_draw r)) as [runs' backOff'].
    apply IH in H. destruct H as (r' & dm0 & sent' & Hin & Hname & Hwon & Hok').
    exists r', dm0, sent'. split; [now right |].
    pose proof Htried as (_ & Hname1 & _).
    split; [congruence |]. split; [exact Hwon |].
    intros Hok. apply Hok'. exact (tried_ok r dm (Lost dm1 sent) Hok Htried).
Qed.

(** The log only grows, and every release added to it carries the mutex
    name and goes to a peer whose grant is among the replies of a round. *)
Lemma Lock_loop_releases sched : forall dm runs backOff log,
  exists extra,
    log_of (Lock_loop n nodes sched dm runs backOff log) = log ++ extra /\
    forall k c nm, In (SendRelease k c nm) extra ->
      nm = Name dm /\
      exists r, In r sched /\ In (grant_of k) (r_replies r).
Proof.
  induction sched as [|r sched IH]; intros dm runs backOff log; simpl.
  - exists []. split; [now rewrite app_nil_r | intros k c nm []].
  - pose proof (Lock_try_tried n nodes r dm) as Htried.
    destruct (Lock_try n nodes r dm) as [dm1 sent bg1|dm1 sent|msg sent];
      simpl in *.
    + destruct Htried as (_ & _ & [_ Hsent] & _). exists sent.
      split; [reflexivity |]. intros k c nm Hin.
      destruct (Hsent k c nm Hin) as [-> Hg]. eauto.
    + destruct Htried as (_ & Hname & _ & [_ Hsent] & _).
      destruct (backoff_step runs backOff (r_draw r)) as [runs' backOff'].
      destruct (IH dm1 runs' backOff' (log ++ sent ++ [Sleep backOff]))
        as (extra & -> & Hextra).
      exists (sent ++ [Sleep backOff] ++ extra).
      split; [now rewrite <- !app_assoc |]. intros k c nm Hin.
      apply in_app_or in Hin. destruct Hin as [Hin|Hin].
      * destruct (Hsent k c nm Hin) as [-> Hg]. eauto.
      * destruct Hin as [Hin|Hin]; [discriminate |].
        destruct (Hextra k c nm Hin) as [-> (r' & Hr' & Hg)].
        split; [exact Hname | eauto].
    + destruct Htried as [_ Hsent]. exists sent.
      split; [reflexivity |]. intros k c nm Hin.
      destruct (Hsent k c nm Hin) as [-> Hg]. eauto.
Qed.

(** With draws in range, the back-off state stays in range and every
    sleep added to the log lasts between 0 and 1024 ms. *)
Lemma Lock_loop_sleeps sched : forall dm runs backOff log ms,
  Forall (fun r => valid_draw (r_draw r)) sched ->
  1 <= runs <= 10 -> 0 <= backOff <= 1024 ->
  In (Sleep ms) (log_of (Lock_loop n nodes sched dm runs backOff log)) ->
  In (Sleep ms) log \/ 0 <= ms <= 1024.
Proof.
  induction sched as [|r sched IH]; intros dm runs backOff log ms Hvalid Hr Hb;
    simpl; [auto |].
  apply Forall_cons in Hvalid. destruct Hvalid as [Hdraw Hvalid].
  pose proof (Lock_try_tried n nodes r dm) as Htried.
  destruct (Lock_try n nodes r dm) as [dm1 sent bg1|dm1 sent|msg sent];
    simpl in *.
  - destruct Htried as (_ & _ & [Hsl _] & _). intros Hin.
    apply in_app_or in Hin. destruct Hin as [Hin|Hin]; [auto |].
    now apply Hsl in Hin.
  - destruct Htried as (_ & _ & _ & [Hsl _] & _).
    pose proof (backoff_step_bounds runs backOff (r_draw r) Hdraw Hr Hb)
      as [Hr' Hb'].
    destruct (backoff_step runs backOff (r_draw r)) as [runs' backOff'].
    simpl in Hr', Hb'. intros Hin.
    apply (IH dm1 runs' backOff' _ ms Hvalid Hr' Hb') in Hin.
    destruct Hin as [Hin|Hin]; [| auto].
    apply in_app_or in Hin. destruct Hin as [Hin|Hin]; [auto |].
    apply in_app_or in Hin. destruct Hin as [Hin|Hin];
      [now apply Hsl in Hin |].
    destruct Hin as [Hin|[]]. injection Hin as <-. right. lia.
  - destruct Htried as [Hsl _]. intros Hin.
    apply in_app_or in Hin. destruct Hin as [Hin|Hin]; [auto |].
    now apply Hsl in Hin.
Qed.

End LockLoop.

(** ** Lock *)

(** C1: when [Lock] returns, the vector it has stored in [dm.locks] has at
    least [floor(n/2) + 1] true entries: it is the vector of an attempt of
    the schedule for which [lock] answered true, that is, which met the
    quorum at its decision point. *)
Theorem Lock_returns_with_quorum {Conn : Type} (n : Z) (nodes : list string)
    (sched : list (@round Conn)) (dm dm' : @DMutex Conn)
    (log : list effect) (bg : result coord) :
  Lock n nodes sched dm = Returned dm' log bg ->
  n / 2 + 1 <= true_entries (locks dm') /\
  exists r cs st pending,
    In r sched /\ clnts dm' = Some cs /\
    lock n cs (replicate (Z.to_nat n) false) (Name dm) (r_timer r)
         (r_replies r) = Ok (true, st, pending) /\
    quorumMet n (c_locks st) = true /\
    locks dm' = c_locks st.
Proof.
  intros H. unfold Lock in H. apply Lock_loop_returned in H.
  destruct H as (r & dm0 & sent & Hin & Hname & Hwon & _). simpl in Hwon.
  destruct Hwon
    as (Hn & _ & _ & cs & st & pending & Hcs & _ & Hlock & Hq & _ & Hl & _).
  split.
  - rewrite Hl. apply quorumMet_true in Hq.
    now rewrite Z.quot_div_nonneg in Hq by lia.
  - exists r, cs, st, pending. rewrite <- Hname. auto.
Qed.

Lemma Lock_returns_with_quorum_witness :
  exists dm' log bg,
    Lock 4 four_nodes two_rounds (newDMutex "L") = Returned dm' log bg /\
    locks dm' = [true; true; true; false] /\
    4 / 2 + 1 <= true_entries (locks dm').
Proof.
  eexists _, _, _. split; [reflexivity |]. split; [reflexivity |].
  refine (proj1 (Lock_returns_with_quorum 4 four_nodes two_rounds
                   (newDMutex "L") _ _ _ eq_refl)).
Defined.

(** [Lock] leaves a well-formed mutex well-formed. *)
Lemma Lock_ok {Conn : Type} (n : Z) (nodes : list string)
    (sched : list (@round Conn)) (dm dm' : @DMutex Conn)
    (log : list effect) (bg : result coord) :
  DMutex_ok n dm = true -> Lock n nodes sched dm = Returned dm' log bg ->
  DMutex_ok n dm' = true.
Proof.
  intros Hok H. unfold Lock in H. apply Lock_loop_returned in H.
  destruct H as (_ & _ & _ & _ & _ & _ & H). now apply H.
Qed.

(** The loop returns with the first round that wins; a round that loses
    sleeps for the current back-off and hands the loop on. *)
Lemma Lock_loop_won {Conn : Type} (n : Z) (nodes : list string)
    (r : @round Conn) (sched : list round) (dm dm' : DMutex)
    (runs backOff : Z) (log sent : list effect) (bg : result coord) :
  Lock_try n nodes r dm = Won dm' sent bg ->
  Lock_loop n nodes (r :: sched) dm runs backOff log =
  Returned dm' (log ++ sent) bg.
Proof. intros H. simpl. now rewrite H. Qed.

Lemma Lock_loop_lost {Conn : Type} (n : Z) (nodes : list string)
    (r : @round Conn) (sched : list round) (dm dm' : DMutex)
    (runs backOff : Z) (log sent : list effect) :
  Lock_try n nodes r dm = Lost dm' sent ->
  Lock_loop n nodes (r :: sched) dm runs backOff log =
  Lock_loop n nodes sched dm'
            (fst (backoff_step runs backOff (r_draw r)))
            (snd (backoff_step runs backOff (r_draw r)))
            (log ++ sent ++ [Sleep backOff]).
Proof.
  intros H. simpl. rewrite H.
  now destruct (backoff_step runs backOff (r_draw r)).
Qed.

(** ** Back-off bounds *)

(** C6, as the code has it: with draws in [[0, 1)], every sleep of the retry
    loop of [Lock] lasts between 0 and 1024 ms, whatever the draws and the
    number of failed attempts. *)
Theorem Lock_sleep_bounds {Conn : Type} (n : Z) (nodes : list string)
    (sched : list (@round Conn)) (dm : @DMutex Conn) (ms : Z) :
  Forall (fun r => valid_draw (r_draw r)) sched ->
  In (Sleep ms) (log_of (Lock n nodes sched dm)) ->
  0 <= ms <= 1024.
Proof.
  intros Hvalid Hin. unfold Lock in Hin.
  apply Lock_loop_sleeps in Hin; [| exact Hvalid | lia | lia].
  destruct Hin as [[]|Hin]. exact Hin.
Qed.

Lemma zero_sleep_sched_valid :
  Forall (fun r : @round nat => valid_draw (r_draw r)) zero_sleep_sched.
Proof.
  unfold zero_sleep_sched. rewrite Forall_map. simpl.
  repeat constructor; vm_compute; congruence.
Qed.

Lemma Lock_sleep_bounds_witness :
  In (Sleep 1014) (log_of (Lock 1 ["A"] zero_sleep_sched (newDMutex "L"))) /\
  0 <= 1014 <= 1024.
Proof.
  assert (Hin : In (Sleep 1014)
                   (log_of (Lock 1 ["A"] zero_sleep_sched (newDMutex "L")))).
  { vm_compute. tauto. }
  split; [exact Hin |].
  exact (Lock_sleep_bounds 1 ["A"] zero_sleep_sched (newDMutex "L") 1014
           zero_sleep_sched_valid Hin).
Defined.

(** The lower bound 1 fails: after the reset [1088 % 64 = 0] the next
    failed attempt sleeps for 0 ms. *)
Lemma Lock_sleeps_zero :
  Forall (fun r : @round nat => valid_draw (r_draw r)) zero_sleep_sched /\
  exists ms,
    In (Sleep ms) (log_of (Lock 1 ["A"] zero_sleep_sched (newDMutex "L"))) /\
    ~ (1 <= ms <= 1024).
Proof.
  split; [exact zero_sleep_sched_valid |].
  exists 0. split; [vm_compute; tauto | lia].
Qed.

(** The state in which the loop of [Lock] is left by that schedule. *)
Example zero_sleep_log :
  Lock 1 ["A"] zero_sleep_sched (newDMutex "L") =
  Retrying {| Name := "L"; locks := []; clnts := Some [Some 0%nat] |} 2 0
           (map Sleep [1; 2; 5; 12; 27; 58; 121; 248; 503; 1014; 0]).
Proof. vm_compute. reflexivity. Qed.

(** ** Releases follow grants *)

(** C7: every release is driven by the grant vector or by a received
    grant.  [releaseAll] and [Unlock] dispatch only to indices marked true
    in the vector they are given, with the client of that index; the drain
    loop dispatches only for pending replies with [locked = true]; every
    release in the log of [Lock], and every release of the drain loop it
    leaves behind, goes to a peer whose grant is among the replies of a
    round; and every entry that [Lock] stores as true, from which [Unlock]
    will release, is such a peer. *)
Theorem releases_follow_grants {Conn : Type} (n : Z) (nodes : list string) :
  (forall (clnts : list (@Client Conn)) grants name grants' sent k c nm,
      releaseAll n clnts grants name = Ok (grants', sent) ->
      In (SendRelease k c nm) sent ->
      grants !! k = Some true /\ clnts !! k = Some c /\ nm = name) /\
  (forall (dm dm' : @DMutex Conn) sent k c nm,
      Unlock n dm = Ok (dm', sent) ->
      In (SendRelease k c nm) sent ->
      locks dm !! k = Some true /\ clients dm !! k = Some c /\ nm = Name dm) /\
  (forall (clnts : list (@Client Conn)) name st pending st',
      drain n clnts name st pending = Ok st' ->
      exists late,
        c_sent st' = c_sent st ++ late /\
        forall k c nm, In (SendRelease k c nm) late ->
          In (grant_of k) pending /\ clnts !! k = Some c /\ nm = name) /\
  (forall (sched : list (@round Conn)) dm k c nm,
      In (SendRelease k c nm) (log_of (Lock n nodes sched dm)) ->
      nm = Name dm /\
      exists r, In r sched /\ In (grant_of k) (r_replies r)) /\
  (forall (sched : list (@round Conn)) dm dm' log bg,
      Lock n nodes sched dm = Returned dm' log bg ->
      (forall k, locks dm' !! k = Some true ->
         exists r, In r sched /\ In (grant_of k) (r_replies r)) /\
      (forall st' k c nm, bg = Ok st' ->
         In (SendRelease k c nm) (c_sent st') ->
         nm = Name dm /\
         exists r, In r sched /\ In (grant_of k) (r_replies r))).
Proof.
  split; [| split; [| split; [| split]]].
  - intros clnts grants name grants' sent k c nm Hrun Hin.
    apply releaseAll_released in Hrun. destruct Hrun as (_ & _ & Hsent & _).
    apply Hsent in Hin. tauto.
  - intros dm dm' sent k c nm Hrun Hin. unfold Unlock in Hrun.
    inv_bind Hrun. destruct (negb a); [discriminate |].
    inv_bind Hrun. destruct a0 as [grants' sent']. injection Hrun as <- <-.
    rewrite (Unlock_range_releaseAll_loop [] (clients dm)) in Ha0.
    apply releaseAll_loop_released in Ha0.
    destruct Ha0 as (_ & _ & Hsent & _). apply Hsent in Hin. tauto.
  - intros clnts name st pending st' Hrun. apply drain_frame in Hrun.
    destruct Hrun as [_ [j Hsent]]. eexists. split; [exact Hsent |].
    intros k c nm Hin. apply late_releases_In in Hin.
    destruct Hin as (-> & Hc & Hin). split; [| auto].
    apply list_elem_of_In. apply (subseteq_take j pending).
    now apply list_elem_of_In.
  - intros sched dm k c nm Hin. unfold Lock in Hin.
    destruct (Lock_loop_releases n nodes sched dm 1 1 []) as (extra & E & H).
    rewrite E in Hin. exact (H k c nm Hin).
  - intros sched dm dm' log bg Hrun. unfold Lock in Hrun.
    apply Lock_loop_returned in Hrun.
    destruct Hrun as (r & dm0 & sent & Hr & Hname & Hwon & _). simpl in Hwon.
    destruct Hwon as (_ & _ & _ & cs & st & pending & _ & _ & Hlock & _ & _
                      & Hl & _ & Hbg).
    apply lock_fresh in Hlock.
    destruct Hlock as (_ & _ & [seen Hseen] & Hget & _ & Hrel).
    rewrite <- Hname. split.
    + intros k Hk. rewrite Hl in Hk. eauto.
    + intros st' k c nm -> Hin. symmetry in Hbg. apply drain_frame in Hbg.
      destruct Hbg as [_ [j Hsent]]. rewrite Hsent in Hin.
      apply in_app_or in Hin. destruct Hin as [Hin|Hin].
      * destruct (Hrel k c nm Hin) as [-> Hg]. eauto.
      * apply late_releases_In in Hin. destruct Hin as (-> & _ & Hin).
        split; [reflexivity |]. exists r. split; [exact Hr |].
        rewrite Hseen. apply in_or_app. right. apply list_elem_of_In.
        apply (subseteq_take j pending). now apply list_elem_of_In.
Qed.

Lemma releases_follow_grants_witness :
  In (SendRelease 1 (Some 1%nat) "L")
     (log_of (Lock 4 four_nodes two_rounds (newDMutex "L"))) /\
  exists r, In r two_rounds /\ In (grant_of 1) (r_replies r).
Proof.
  assert (Hin : In (SendRelease 1 (Some 1%nat) "L")
                   (log_of (Lock 4 four_nodes two_rounds (newDMutex "L")))).
  { vm_compute. tauto. }
  split; [exact Hin |].
  destruct (releases_follow_grants (Conn := nat) 4 four_nodes)
    as (_ & _ & _ & Hlog & _).
  exact (proj2 (Hlog two_rounds (newDMutex "L") 1%nat (Some 1%nat) "L" Hin)).
Defined.

(** ** The scenarios of the specification (n = 4, quorum 3) *)

(** S1: every peer grants in time; [Unlock] then releases all four. *)
Example scenario_clean_acquisition :
  lock 4 four_clients (replicate 4 false) "L" 9
       [reply 0 true; reply 1 true; reply 2 true; reply 3 true]
    = Ok (true, {| c_i := 4; c_locks := [true; true; true; true];
                   c_sent := [] |}, []) /\
  Unlock 4 {| Name := "L"; locks := [true; true; true; true];
              clnts := Some four_clients |}
    = Ok ({| Name := "L"; locks := [false; false; false; false];
             clnts := Some four_clients |},
          [SendRelease 0 (Some 0%nat) "L"; SendRelease 1 (Some 1%nat) "L";
           SendRelease 2 (Some 2%nat) "L"; SendRelease 3 (Some 3%nat) "L"]).
Proof. split; reflexivity. Qed.

(** S2: peer A refuses first; the grants of B, C, D arrive in the drain
    loop and are released.  The counter is still 0 at the break, so the
    drain loop waits for a fourth reply that never comes: it stops at 3. *)
Example scenario_one_peer_refuses :
  lock 4 four_clients (replicate 4 false) "L" 9
       [reply 0 false; reply 1 true; reply 2 true; reply 3 true]
    = Ok (false, {| c_i := 0; c_locks := [false; false; false; false];
                    c_sent := [] |},
          [reply 1 true; reply 2 true; reply 3 true]) /\
  drain 4 four_clients "L"
        {| c_i := 0; c_locks := [false; false; false; false]; c_sent := [] |}
        [reply 1 true; reply 2 true; reply 3 true]
    = Ok {| c_i := 3; c_locks := [false; false; false; false];
            c_sent := [SendRelease 1 (Some 1%nat) "L";
                       SendRelease 2 (Some 2%nat) "L";
                       SendRelease 3 (Some 3%nat) "L"] |}.
Proof. split; reflexivity. Qed.

(** S4: only peer A grants before the timer; its grant is released. *)
Example scenario_no_quorum_by_timeout :
  lock 4 four_clients (replicate 4 false) "L" 9 [reply 0 true]
    = Ok (false, {| c_i := 1; c_locks := [false; false; false; false];
                    c_sent := [SendRelease 0 (Some 0%nat) "L"] |}, []).
Proof. reflexivity. Qed.

(** * Further properties of the code *)

(** ** Majorities *)

Lemma true_entries_cons (b : bool) (grants : list bool) :
  true_entries (b :: grants) = (if b then 1 else 0) + true_entries grants.
Proof. unfold true_entries. destruct b; simpl; lia. Qed.

Lemma true_entries_le_length (grants : list bool) :
  true_entries grants <= Z.of_nat (length grants).
Proof.
  induction grants as [|b grants IH]; [unfold true_entries; simpl; lia |].
  rewrite true_entries_cons. destruct b; simpl length; lia.
Qed.

Lemma true_entries_disjoint (a b : list bool) :
  length a = length b ->
  (forall k, a !! k = Some true -> b !! k <> Some true) ->
  true_entries a + true_entries b <= Z.of_nat (length a).
Proof.
  revert b. induction a as [|x a IH]; intros [|y b] Hlen Hdis;
    simpl in Hlen; try lia; [unfold true_entries; simpl; lia |].
  rewrite !true_entries_cons. simpl length.
  assert (IH' : true_entries a + true_entries b <= Z.of_nat (length a)).
  { apply IH; [simpl in Hlen; lia |]. intros k. apply (Hdis (S k)). }
  pose proof (Hdis 0%nat) as H0. simpl in H0.
  destruct x, y; try lia. exfalso. now apply H0.
Qed.

(** Two grant vectors over the same [n] peers that share no granting peer
    cannot both meet the quorum: [n/2 + 1] is a majority. *)
Theorem quorumMet_exclusive (n : Z) (a b : list bool) :
  Z.of_nat (length a) = n -> Z.of_nat (length b) = n ->
  (forall k, a !! k = Some true -> b !! k <> Some true) ->
  quorumMet n a = true -> quorumMet n b = false.
Proof.
  intros Ha Hb Hdis Hqa. apply not_true_iff_false. intros Hqb.
  apply quorumMet_true in Hqa, Hqb.
  pose proof (true_entries_disjoint a b ltac:(lia) Hdis) as Hsum.
  rewrite Z.quot_div_nonneg in Hqa, Hqb by lia.
  pose proof (Z.mod_pos_bound n 2 ltac:(lia)).
  pose proof (Z.div_mod n 2 ltac:(lia)). lia.
Qed.

Lemma quorumMet_exclusive_witness :
  quorumMet 4 [false; false; false; true] = false.
Proof.
  apply (quorumMet_exclusive 4 [true; true; true; false]);
    [reflexivity | reflexivity | | reflexivity].
  intros [|[|[|[|k]]]]; simpl; intros H1 H2;
    first [discriminate H1 | discriminate H2].
Defined.

Lemma true_entries_insert_true (grants : list bool) (k : nat) :
  true_entries grants <= true_entries (<[k:=true]> grants).
Proof.
  revert k. induction grants as [|b grants IH]; intros k;
    [destruct k; simpl; lia |].
  destruct k as [|k]; simpl; rewrite !true_entries_cons.
  - destruct b; lia.
  - specialize (IH k). lia.
Qed.

(** A further grant never loses a quorum that is met. *)
Theorem quorumMet_monotone (n : Z) (grants : list bool) (k : nat) :
  quorumMet n grants = true -> quorumMet n (<[k:=true]> grants) = true.
Proof.
  rewrite !quorumMet_true. pose proof (true_entries_insert_true grants k). lia.
Qed.

Lemma quorumMet_monotone_witness :
  quorumMet 3 (<[2%nat:=true]> [true; true; false]) = true.
Proof. apply quorumMet_monotone. reflexivity. Defined.

(** ** releaseAll: one release per marked peer *)

Lemma releaseAll_loop_count {Conn : Type} (todo lock : nat)
    (clnts : list (@Client Conn)) (grants grants' : list bool)
    (name : string) (sent : list effect) :
  releaseAll_loop todo lock clnts grants name = Ok (grants', sent) ->
  Z.of_nat (length sent) = true_entries (take todo (drop lock grants)).
Proof.
  revert lock grants grants' sent.
  induction todo as [|todo IH]; intros lock grants grants' sent H; simpl in H.
  - injection H as <- <-. reflexivity.
  - destruct (grants !! lock) as [b|] eqn:Hlock; [| discriminate].
    rewrite (drop_S _ _ _ Hlock). simpl take. rewrite true_entries_cons.
    destruct b.
    + destruct (clnts !! lock) as [c|]; [| discriminate].
      inv_bind H. destruct a as [g0 s0]. injection H as <- <-.
      apply IH in Ha. rewrite drop_insert_lt in Ha by lia.
      simpl length. lia.
    + apply IH in H. lia.
Qed.

(** On a vector and a pool of [n] entries [releaseAll] returns, leaves the
    vector all false, has dispatched as many releases as there were true
    entries, and a second [releaseAll] dispatches nothing. *)
Theorem releaseAll_once {Conn : Type} (n : Z) (clnts : list (@Client Conn))
    (grants : list bool) (name : string) :
  Z.of_nat (length grants) = n -> Z.of_nat (length clnts) = n ->
  exists sent,
    releaseAll n clnts grants name = Ok (replicate (Z.to_nat n) false, sent) /\
    Z.of_nat (length sent) = true_entries grants /\
    releaseAll n clnts (replicate (Z.to_nat n) false) name =
      Ok (replicate (Z.to_nat n) false, []).
Proof.
  intros Hg Hc.
  destruct (releaseAll_total n clnts grants name Hg Hc)
    as (grants' & sent & Hrun & ->).
  exists sent. split; [exact Hrun |]. split.
  - apply releaseAll_loop_count in Hrun.
    rewrite drop_0, take_ge in Hrun by lia. exact Hrun.
  - destruct (releaseAll_total n clnts (replicate (Z.to_nat n) false) name)
      as (g2 & s2 & Hrun2 & ->); [rewrite length_replicate; lia | exact Hc |].
    rewrite Hrun2. f_equal. f_equal.
    apply releaseAll_loop_count in Hrun2.
    rewrite drop_0, take_ge in Hrun2 by (rewrite length_replicate; lia).
    rewrite true_entries_replicate_false in Hrun2.
    destruct s2; [reflexivity | simpl in Hrun2; lia].
Qed.

Lemma releaseAll_once_witness :
  exists sent,
    releaseAll 3 [Some 7%nat; Some 8%nat; Some 9%nat] [true; false; true] "L"
      = Ok (replicate (Z.to_nat 3) false, sent) /\
    Z.of_nat (length sent) = 2.
Proof.
  destruct (releaseAll_once 3 [Some 7%nat; Some 8%nat; Some 9%nat]
              [true; false; true] "L" eq_refl eq_refl)
    as (sent & Hrun & Hcount & _).
  exists sent. split; [exact Hrun | exact Hcount].
Defined.

(** ** hasLock: all outcomes *)

Lemma first_index_unique (ns : list string) (node : string) (i j : nat) :
  first_index ns node i -> first_index ns node j -> i = j.
Proof.
  intros [Hi Hfi] [Hj Hfj].
  destruct (Nat.lt_trichotomy i j) as [H|[H|H]]; [| exact H |].
  - now apply Hfj in H.
  - now apply Hfi in H.
Qed.

Lemma hasLock_range_cases (idx : nat) (ns : list string) (grants : list bool)
    (node : string) :
  (~ In node ns /\ hasLock_range idx ns grants node = Ok false) \/
  (exists i, first_index ns node i /\
     hasLock_range idx ns grants node =
       match grants !! (idx + i)%nat with
       | Some b => Ok b
       | None => Panic index_out_of_range
       end).
Proof.
  revert idx. induction ns as [|a ns IH]; intros idx; simpl.
  - left. split; [intros [] | reflexivity].
  - destruct (String.eqb_spec a node) as [->|Hne].
    + right. exists 0%nat. rewrite Nat.add_0_r.
      split; [| reflexivity]. split; [reflexivity | intros j Hj; lia].
    + destruct (IH (S idx)) as [[Hnot Hres]|(i & [Hi Hfi] & Hres)].
      * left. split; [| exact Hres]. intros [H|H]; [congruence | auto].
      * right. exists (S i).
        replace (idx + S i)%nat with (S idx + i)%nat by lia.
        split; [| exact Hres]. split; [exact Hi |].
        intros [|j] Hj; simpl; [congruence | apply Hfi; lia].
Qed.

(** [hasLock] answers true exactly for a configured node whose first index
    is marked true in the stored vector, and panics exactly for a configured
    node whose first index lies beyond the stored vector. *)
Theorem hasLock_outcomes {Conn : Type} (nodes : list string)
    (dm : @DMutex Conn) (node : string) :
  (hasLock nodes dm node = Ok true <->
   exists i, first_index nodes node i /\ locks dm !! i = Some true) /\
  ((exists msg, hasLock nodes dm node = Panic msg) <->
   exists i, first_index nodes node i /\ (length (locks dm) <= i)%nat).
Proof.
  unfold hasLock.
  destruct (hasLock_range_cases 0 nodes (locks dm) node)
    as [[Hnot ->]|(i & Hi & ->)]; simpl.
  - split; split; try discriminate.
    + intros (i & [Hi _] & _). exfalso. apply Hnot.
      apply list_elem_of_In. eapply list_elem_of_lookup_2. exact Hi.
    + intros [msg H]. discriminate.
    + intros (i & [Hi _] & _). exfalso. apply Hnot.
      apply list_elem_of_In. eapply list_elem_of_lookup_2. exact Hi.
  - destruct (locks dm !! i) as [b|] eqn:Hb; split; split.
    + intros [= ->]. eauto.
    + intros (j & Hj & Hjb).
      rewrite (first_index_unique _ _ _ _ Hi Hj) in Hb. congruence.
    + intros [msg H]. discriminate.
    + intros (j & Hj & Hlen).
      rewrite (first_index_unique _ _ _ _ Hi Hj) in Hb.
      apply lookup_lt_Some in Hb. lia.
    + discriminate.
    + intros (j & Hj & Hjb).
      rewrite (first_index_unique _ _ _ _ Hi Hj) in Hb. congruence.
    + intros _. exists i. split; [exact Hi |]. now apply lookup_ge_None.
    + intros _. eauto.
Qed.

(** With as many stored flags as configured nodes, [hasLock] never
    panics. *)
Theorem hasLock_total {Conn : Type} (nodes : list string)
    (dm : @DMutex Conn) (node : string) :
  (length nodes <= length (locks dm))%nat ->
  exists b, hasLock nodes dm node = Ok b.
Proof.
  intros Hlen. unfold hasLock.
  destruct (hasLock_range_cases 0 nodes (locks dm) node)
    as [[_ ->]|(i & [Hi _] & ->)]; [eauto |]. simpl.
  apply lookup_lt_Some in Hi.
  destruct (lookup_lt_is_Some_2 (locks dm) i) as [b ->]; [lia | eauto].
Qed.

Lemma hasLock_total_witness :
  exists b,
    hasLock ["A"; "B"]
            {| Name := "L"; locks := [false; true];
               clnts := @None (list (@Client unit)) |} "B" = Ok b.
Proof. apply hasLock_total. simpl. lia. Defined.

(** ** connectLazy *)

Section Connect.

Context {Conn : Type}.
Variable n : Z.
Variable nodes : list string.
Variable dial : nat -> string -> @Client Conn.

Lemma connect_range_slots (cs : list (@Client Conn)) :
  forall (i : nat) cs',
  connect_range nodes dial i cs = Ok cs' ->
  length cs' = length cs /\
  forall j c, cs !! j = Some c ->
    exists c', cs' !! j = Some c' /\ connected nodes dial (i + j) c c'.
Proof.
  induction cs as [|c cs IH]; intros i cs' H; simpl in H.
  - injection H as <-. split; [reflexivity | intros j c; discriminate].
  - inv_bind H. inv_bind H. injection H as <-.
    apply IH in Ha0. destruct Ha0 as [Hlen Hslots].
    split; [simpl; now rewrite Hlen |].
    intros [|j] c0 Hj; simpl in Hj.
    + injection Hj as <-. exists a. split; [reflexivity |].
      rewrite Nat.add_0_r. destruct c as [h|]; simpl.
      * now injection Ha as <-.
      * destruct (nodes !! i) as [addr|]; [| discriminate].
        injection Ha as <-. eauto.
    + destruct (Hslots j c0 Hj) as (c' & Hc' & Hconn).
      exists c'. split; [exact Hc' |].
      now replace (i + S j)%nat with (S i + j)%nat by lia.
Qed.

Lemma connect_range_Ok_iff (cs : list (@Client Conn)) : forall (i : nat),
  (exists cs', connect_range nodes dial i cs = Ok cs') <->
  (forall j, cs !! j = Some None -> (i + j < length nodes)%nat).
Proof.
  induction cs as [|c cs IH]; intros i; simpl.
  - split; [intros _ j; discriminate | eauto].
  - split.
    + intros [cs' H]. inv_bind H. inv_bind H.
      assert (Hrest : exists cs', connect_range nodes dial (S i) cs = Ok cs')
        by eauto.
      pose proof (proj1 (IH (S i)) Hrest) as Hall. clear Hrest.
      rename Hall into Hrest. intros [|j] Hj; simpl in Hj.
      * injection Hj as ->. rewrite Nat.add_0_r.
        destruct (nodes !! i) eqn:Hi; [| discriminate].
        now apply lookup_lt_Some in Hi.
      * specialize (Hrest j Hj). lia.
    + intros Hall.
      destruct (proj2 (IH (S i))) as [cs' Hcs'].
      { intros j Hj. specialize (Hall (S j) Hj). lia. }
      rewrite Hcs'. destruct c as [h|]; simpl; [eauto |].
      destruct (lookup_lt_is_Some_2 nodes i) as [addr ->]; [| simpl; eauto].
      specialize (Hall 0%nat eq_refl). lia.
Qed.

End Connect.

(** When [connectLazy] returns it has changed neither the name nor the
    stored vector; a nil pool has become a pool of [n] slots; every live
    client is the one that was there and every nil slot [k] holds the
    outcome of dialling [nodes[k]]. *)
Theorem connectLazy_slots {Conn : Type} (n : Z) (nodes : list string)
    (dial : nat -> string -> @Client Conn) (dm dm1 : @DMutex Conn) :
  connectLazy n nodes dial dm = Ok dm1 ->
  Name dm1 = Name dm /\ locks dm1 = locks dm /\
  exists cs1,
    clnts dm1 = Some cs1 /\
    (clnts dm = None ->
       0 <= n /\ length cs1 = Z.to_nat n /\
       forall k, (k < Z.to_nat n)%nat ->
         exists addr, nodes !! k = Some addr /\ cs1 !! k = Some (dial k addr)) /\
    (forall cs, clnts dm = Some cs ->
       length cs1 = length cs /\
       forall k c, cs !! k = Some c ->
         exists c', cs1 !! k = Some c' /\ connected nodes dial k c c').
Proof.
  unfold connectLazy. intros H. inv_bind H. inv_bind H. injection H as <-.
  simpl. split; [reflexivity |]. split; [reflexivity |].
  exists a0. split; [reflexivity |].
  apply connect_range_slots in Ha0. destruct Ha0 as [Hlen Hslots].
  destruct (clnts dm) as [cs|].
  - injection Ha as <-. split; [discriminate |].
    intros cs0 [= <-]. split; [exact Hlen | exact Hslots].
  - apply make_Ok in Ha. destruct Ha as [Hn ->].
    rewrite length_replicate in Hlen. split; [| discriminate].
    intros _. split; [exact Hn |]. split; [exact Hlen |].
    intros k Hk.
    destruct (Hslots k None (lookup_replicate_2 _ _ _ Hk))
      as (c' & Hc' & addr & Haddr & ->).
    eauto.
Qed.

Lemma connectLazy_slots_witness :
  exists cs1,
    connectLazy 2 ["A"; "B"] (fun k _ => Some (10 + k)%nat)
                {| Name := "L"; locks := [];
                   clnts := Some [Some 7%nat; None] |}
      = Ok {| Name := "L"; locks := []; clnts := Some cs1 |} /\
    cs1 !! 0%nat = Some (Some 7%nat) /\ cs1 !! 1%nat = Some (Some 11%nat).
Proof.
  destruct (connectLazy_slots 2 ["A"; "B"] (fun k _ => Some (10 + k)%nat)
              {| Name := "L"; locks := []; clnts := Some [Some 7%nat; None] |}
              {| Name := "L"; locks := [];
                 clnts := Some [Some 7%nat; Some 11%nat] |} eq_refl)
    as (_ & _ & cs1 & Hcs1 & _ & _).
  injection Hcs1 as <-. eexists. split; [reflexivity |]. split; reflexivity.
Defined.

(** [connectLazy] panics exactly when a nil pool is to be built for a
    negative [n], or when a nil slot has no configured address. *)
Theorem connectLazy_Ok_iff {Conn : Type} (n : Z) (nodes : list string)
    (dial : nat -> string -> @Client Conn) (dm : @DMutex Conn) :
  (exists dm1, connectLazy n nodes dial dm = Ok dm1) <->
  match clnts dm with
  | None => 0 <= n <= Z.of_nat (length nodes)
  | Some cs => forall k, cs !! k = Some None -> (k < length nodes)%nat
  end.
Proof.
  unfold connectLazy. destruct (clnts dm) as [cs|]; simpl.
  - rewrite <- (connect_range_Ok_iff nodes dial cs 0). split.
    + intros [dm1 H]. inv_bind H. eauto.
    + intros [cs' ->]. simpl. eauto.
  - unfold make. destruct (Z.ltb_spec n 0) as [Hneg|Hn]; simpl.
    + split; [intros [dm1 H]; discriminate | lia].
    + split.
      * intros [dm1 H]. inv_bind H.
        assert (Hok : exists cs', connect_range nodes dial 0
                                    (replicate (Z.to_nat n) None) = Ok cs')
          by eauto.
        pose proof (proj1 (connect_range_Ok_iff _ _ _ _) Hok) as Hall.
        clear Hok. rename Hall into Hok. split; [exact Hn |].
        destruct (Z.to_nat n) as [|m] eqn:Hm; [lia |].
        assert (Hlast : replicate (S m) (@None Conn) !! m = Some None)
          by (apply lookup_replicate_2; lia).
        specialize (Hok m Hlast). simpl in Hok. lia.
      * intros [_ Hle].
        destruct (proj2 (connect_range_Ok_iff nodes dial
                           (replicate (Z.to_nat n) None) 0)) as [cs' ->].
        { intros k Hk. apply lookup_replicate in Hk. simpl. lia. }
        simpl. eauto.
Qed.

(** ** One attempt: the exact outcome of the decision loop *)

Section Shape.

Context {Conn : Type}.
Variable n : Z.
Implicit Types (clnts : list (@Client Conn)) (grants : list bool)
  (pre replies pending : list Granted) (st : @coord Conn).

Lemma decision_timeout clnts name timer i grants sent replies :
  i < n -> timer = 0%nat \/ replies = [] ->
  decision n clnts name timer i grants sent replies =
  timed_out n clnts name i grants sent replies.
Proof.
  intros Hi Hcase.
  destruct timer, replies; simpl; destruct (Z.ltb_spec i n);
    try lia; try reflexivity.
  destruct Hcase; discriminate.
Qed.

Lemma decision_done clnts name timer i grants sent replies :
  n <= i ->
  decision n clnts name timer i grants sent replies =
  Ok ({| c_i := i; c_locks := grants; c_sent := sent |}, replies).
Proof.
  intros Hi. destruct timer, replies; simpl; destruct (Z.ltb_spec i n);
    try lia; reflexivity.
Qed.

Lemma Forall_in_range_insert pre grants (k : nat) :
  Forall (fun g => locked g = true /\
                   (index g < length (<[k:=true]> grants))%nat) pre ->
  Forall (fun g => locked g = true /\ (index g < length grants)%nat) pre.
Proof.
  intros H. eapply Forall_impl; [exact H |]. simpl. intros x.
  now rewrite length_insert.
Qed.

Lemma timed_out_stopped clnts name i grants sent replies st pending :
  i < n ->
  timed_out n clnts name i grants sent replies = Ok (st, pending) ->
  stopped n clnts name i grants sent replies st pending.
Proof.
  intros Hi. unfold timed_out. destruct (quorumMet n grants) eqn:Hq; simpl.
  - intros [= <- <-]. apply (stopped_kept _ _ _ _ _ _ _ _ _ []); simpl;
      auto; lia.
  - intros H. inv_bind H. destruct a as [g' rel]. injection H as <- <-.
    apply (stopped_released _ _ _ _ _ _ _ _ _ [] rel); simpl; auto; lia.
Qed.

Lemma decision_stopped clnts name replies :
  forall timer i grants sent st pending,
  decision n clnts name timer i grants sent replies = Ok (st, pending) ->
  stopped n clnts name i grants sent replies st pending.
Proof.
  induction replies as [|g replies IH]; intros timer i grants sent st pending H.
  - destruct (Z.lt_ge_cases i n) as [Hi|Hi].
    + rewrite decision_timeout in H by auto. now apply timed_out_stopped.
    + rewrite decision_done in H by exact Hi. injection H as <- <-.
      apply (stopped_kept _ _ _ _ _ _ _ _ _ []); simpl; auto; lia.
  - destruct (Z.lt_ge_cases i n) as [Hi|Hi].
    2:{ rewrite decision_done in H by exact Hi. injection H as <- <-.
        apply (stopped_kept _ _ _ _ _ _ _ _ _ []); simpl; auto; lia. }
    destruct timer as [|timer].
    { rewrite decision_timeout in H by auto. now apply timed_out_stopped. }
    simpl in H. destruct (Z.ltb_spec i n) as [_|?]; [| lia].
    destruct g as [k [|]]; simpl in H.
    + destruct (grants !! k) as [b|] eqn:Hk; [| discriminate].
      apply lookup_lt_Some in Hk. apply IH in H.
      destruct H as [pre Hpre Hsplit Hci Hl Hs Hq
                    |pre rel Hpre Hsplit Hci Hlt Hrel Hs].
      * apply (stopped_kept _ _ _ _ _ _ _ _ _
                 ({| index := k; locked := true |} :: pre)); simpl; auto.
        -- constructor; [auto |]. now apply Forall_in_range_insert in Hpre.
        -- now rewrite Hsplit.
        -- simpl length. lia.
      * apply (stopped_released _ _ _ _ _ _ _ _ _
                 ({| index := k; locked := true |} :: pre) rel); simpl; auto.
        -- constructor; [auto |]. now apply Forall_in_range_insert in Hpre.
        -- destruct Hsplit as [[-> Hq]|(neg & Hneg & ->)];
             [left; auto | right; eauto].
        -- simpl length. lia.
    + inv_bind H. destruct a as [g' rel]. injection H as <- <-.
      apply (stopped_released _ _ _ _ _ _ _ _ _ [] rel); simpl; auto; try lia.
      right. exists {| index := k; locked := false |}. auto.
Qed.

End Shape.

(** ** One attempt: counting the grants *)

Lemma true_entries_insert_fresh (grants : list bool) (k : nat) :
  grants !! k = Some false ->
  true_entries (<[k:=true]> grants) = true_entries grants + 1.
Proof.
  revert k. induction grants as [|b grants IH]; intros k Hk; [discriminate |].
  destruct k as [|k]; simpl in *; rewrite !true_entries_cons.
  - injection Hk as ->. lia.
  - rewrite (IH k Hk). lia.
Qed.

Lemma marked_count (pre : list Granted) : forall (grants : list bool),
  NoDup (map index pre) ->
  Forall (fun g => grants !! index g = Some false) pre ->
  true_entries (marked pre grants) = true_entries grants + Z.of_nat (length pre).
Proof.
  induction pre as [|g pre IH]; intros grants Hnd Hfresh; simpl; [lia |].
  apply Forall_cons in Hfresh. destruct Hfresh as [Hg Hfresh].
  simpl in Hnd. apply NoDup_cons in Hnd. destruct Hnd as [Hnotin Hnd].
  unfold marked in IH. rewrite IH.
  - rewrite (true_entries_insert_fresh _ _ Hg). lia.
  - exact Hnd.
  - rewrite Forall_forall in Hfresh |- *. intros x Hx.
    rewrite list_lookup_insert_ne; [now apply Hfresh |].
    intros E. apply Hnotin. rewrite E.
    apply list_elem_of_In, in_map, list_elem_of_In, Hx.
Qed.

Lemma true_entries_full (grants : list bool) :
  true_entries grants = Z.of_nat (length grants) ->
  grants = replicate (length grants) true.
Proof.
  induction grants as [|b grants IH]; [reflexivity |].
  rewrite true_entries_cons. simpl length.
  pose proof (true_entries_le_length grants) as Hle.
  destruct b; intros H; [| lia]. simpl. f_equal. apply IH. lia.
Qed.

Lemma fresh_in_range (len : nat) (pre : list Granted) :
  Forall (fun g => locked g = true /\
                   (index g < length (replicate len false))%nat) pre ->
  Forall (fun g => replicate len false !! index g = Some false) pre.
Proof.
  intros H. eapply Forall_impl; [exact H |]. simpl. intros g [_ Hg].
  rewrite length_replicate in Hg. now apply lookup_replicate_2.
Qed.

Lemma NoDup_index_app_l (pre rest : list Granted) :
  NoDup (map index (pre ++ rest)) -> NoDup (map index pre).
Proof. rewrite map_app. intros H. now apply NoDup_app in H. Qed.

Lemma NoDup_index_disjoint (pre rest : list Granted) (k : nat) :
  NoDup (map index (pre ++ rest)) ->
  In k (map index pre) -> In k (map index rest) -> False.
Proof.
  rewrite map_app. intros H Hpre Hrest. apply NoDup_app in H.
  destruct H as (_ & Hdis & _).
  apply (Hdis k); now apply list_elem_of_In.
Qed.

Lemma grant_of_index (k : nat) (l : list Granted) :
  In (grant_of k) l -> In k (map index l).
Proof. intros H. now apply (in_map index) in H. Qed.

Section Accounting.

Context {Conn : Type}.
Variable n : Z.
Implicit Types (clnts : list (@Client Conn)) (replies pending : list Granted)
  (st : @coord Conn).

Lemma lock_stopped clnts grants name timer replies (quorum : bool) st pending :
  lock n clnts grants name timer replies = Ok (quorum, st, pending) ->
  quorum = quorumMet n (c_locks st) /\
  stopped n clnts name 0 grants [] replies st pending.
Proof.
  unfold lock. intros H. inv_bind H. destruct a as [st0 pending0].
  injection H as <- <- <-. split; [reflexivity |].
  now apply (decision_stopped n clnts name replies timer).
Qed.

(** A vector that was kept although it misses the quorum belongs to an
    empty cluster. *)
Lemma kept_without_quorum (pre : list Granted) :
  NoDup (map index pre) ->
  Forall (fun g => locked g = true /\
            (index g < length (replicate (Z.to_nat n) false))%nat) pre ->
  n <= Z.of_nat (length pre) ->
  quorumMet n (marked pre (replicate (Z.to_nat n) false)) = false ->
  pre = [] /\ n <= 0.
Proof.
  intros Hnd Hpre Hn Hq.
  pose proof (marked_count pre _ Hnd (fresh_in_range _ _ Hpre)) as Hcount.
  rewrite true_entries_replicate_false in Hcount.
  pose proof (true_entries_le_length (marked pre (replicate (Z.to_nat n) false)))
    as Hle.
  rewrite marked_length, length_replicate in Hle.
  apply not_true_iff_false in Hq. rewrite quorumMet_true in Hq.
  destruct (Z.le_gt_cases n 0) as [H0|H0].
  - split; [| exact H0]. destruct pre; [reflexivity | simpl in *; lia].
  - exfalso. apply Hq. rewrite Z.quot_div_nonneg by lia.
    pose proof (Z.div_lt_upper_bound n 2 n ltac:(lia) ltac:(lia)). lia.
Qed.

End Accounting.

Lemma grants_index_iff (pre : list Granted) (len : nat) (k : nat) :
  Forall (fun g => locked g = true /\ (index g < len)%nat) pre ->
  In k (map index pre) <-> In (grant_of k) pre.
Proof.
  intros Hpre. split; [| apply grant_of_index].
  intros H. apply in_map_iff in H. destruct H as ([j b] & Hj & Hin).
  simpl in Hj. subst j. rewrite Forall_forall in Hpre.
  destruct (Hpre _ (proj2 (list_elem_of_In _ _) Hin)) as [Hb _].
  simpl in Hb. now subst b.
Qed.

Section Outcome.

Context {Conn : Type}.
Variable n : Z.
Implicit Types (clnts : list (@Client Conn)) (replies pending : list Granted)
  (st : @coord Conn).

(** The two outcomes of [lock] on a fresh vector, for a pool of [n] clients
    and replies from distinct peers.  [seen] are the replies received by
    the decision loop. *)
Lemma lock_fresh_outcome clnts name timer replies (quorum : bool) st pending :
  Z.of_nat (length clnts) = n ->
  NoDup (map index replies) ->
  lock n clnts (replicate (Z.to_nat n) false) name timer replies
    = Ok (quorum, st, pending) ->
  exists seen,
    replies = seen ++ pending /\
    0 <= c_i st <= Z.of_nat (length seen) /\
    ((quorum = true /\ c_sent st = [] /\
      Forall (fun g => locked g = true /\ (index g < Z.to_nat n)%nat) seen /\
      c_i st = Z.of_nat (length seen) /\
      c_locks st = marked seen (replicate (Z.to_nat n) false) /\
      true_entries (c_locks st) = Z.of_nat (length seen) /\
      forall k, c_locks st !! k = Some true <-> In (grant_of k) seen) \/
     (quorum = false /\ c_locks st = replicate (Z.to_nat n) false /\
      forall k c nm, In (SendRelease k c nm) (c_sent st) <->
                     nm = name /\ clnts !! k = Some c /\
                     In (grant_of k) seen)).
Proof.
  intros Hc Hnd Hlock. apply lock_stopped in Hlock.
  destruct Hlock as [Hq Hstop].
  destruct Hstop as [pre Hpre Hsplit Hci Hl Hs Hkept
                    |pre rel Hpre Hsplit Hci Hlt Hrel Hs].
  - exists pre. split; [exact Hsplit |]. split; [lia |].
    rewrite Hsplit in Hnd. pose proof (NoDup_index_app_l _ _ Hnd) as Hndpre.
    pose proof (marked_count pre _ Hndpre (fresh_in_range _ _ Hpre)) as Hcount.
    rewrite true_entries_replicate_false in Hcount.
    assert (Hget : forall k, marked pre (replicate (Z.to_nat n) false) !! k
                             = Some true <-> In (grant_of k) pre).
    { intros k. rewrite (marked_lookup pre _ k Hpre).
      rewrite <- (grants_index_iff pre _ k Hpre). split; [| tauto].
      intros [H|H]; [| exact H]. apply lookup_replicate in H.
      destruct H as [H _]. discriminate. }
    destruct quorum.
    + left. rewrite Hl. rewrite length_replicate in Hpre.
      repeat (split; [first [assumption | reflexivity | lia] |]). exact Hget.
    + right. split; [reflexivity |]. rewrite Hl in Hq.
      destruct Hkept as [Hkept|Hkept]; [congruence |].
      destruct (kept_without_quorum n pre Hndpre Hpre ltac:(lia) (eq_sym Hq))
        as [-> Hn0].
      split; [now rewrite Hl |]. rewrite Hs. intros k c nm.
      split; [intros [] | intros (_ & _ & [])].
  - destruct (releaseAll_total n clnts
                (marked pre (replicate (Z.to_nat n) false)) name)
      as (g' & rel' & Hrun & Hfalse);
      [rewrite marked_length, length_replicate; lia | exact Hc |].
    rewrite Hrel in Hrun. injection Hrun as <- <-.
    apply releaseAll_released in Hrel. destruct Hrel as (_ & _ & Hsent & _).
    assert (Hquorum : quorum = false).
    { rewrite Hq, Hfalse. apply quorumMet_replicate_false. lia. }
    assert (Hrelease : forall seen,
               (forall k, In (grant_of k) seen <-> In (grant_of k) pre) ->
               forall k c nm, In (SendRelease k c nm) (c_sent st) <->
                 nm = name /\ clnts !! k = Some c /\ In (grant_of k) seen).
    { intros seen Hseen k c nm. rewrite Hs. simpl. rewrite Hsent, Hseen.
      rewrite (marked_lookup pre _ k Hpre).
      rewrite (grants_index_iff pre _ k Hpre). split.
      - intros (-> & _ & Hk & [H|H]); [| auto].
        apply lookup_replicate in H. destruct H as [H _]. discriminate.
      - intros (-> & Hk & Hin). split; [reflexivity |].
        split; [| split; [exact Hk | now right]].
        apply lookup_lt_Some in Hk. lia. }
    destruct Hsplit as [[Hsplit _]|(neg & Hneg & Hsplit)].
    + exists pre. split; [exact Hsplit |]. split; [lia |]. right.
      split; [exact Hquorum |]. split; [exact Hfalse |].
      apply Hrelease. tauto.
    + exists (pre ++ [neg]).
      split; [now rewrite <- app_assoc |].
      split; [rewrite length_app; simpl; lia |]. right.
      split; [exact Hquorum |]. split; [exact Hfalse |].
      apply Hrelease. intros k. rewrite in_app_iff. split; [| tauto].
      intros [H|[H|[]]]; [exact H |]. subst neg. discriminate.
Qed.

End Outcome.

(** A successful attempt on a fresh vector (pool of [n] clients, replies
    from distinct peers) has dispatched no release in its decision loop,
    and the vector it hands to [Lock] marks exactly the peers whose grant
    the decision loop received: as many true entries as replies received. *)
Theorem lock_success_keeps_seen_grants {Conn : Type} (n : Z)
    (clnts : list (@Client Conn)) (name : string) (timer : nat)
    (replies : list Granted) (st : coord) (pending : list Granted) :
  Z.of_nat (length clnts) = n ->
  NoDup (map index replies) ->
  lock n clnts (replicate (Z.to_nat n) false) name timer replies
    = Ok (true, st, pending) ->
  exists seen,
    replies = seen ++ pending /\
    Forall (fun g => locked g = true) seen /\
    c_sent st = [] /\
    true_entries (c_locks st) = Z.of_nat (length seen) /\
    forall k, c_locks st !! k = Some true <-> In (grant_of k) seen.
Proof.
  intros Hc Hnd Hlock.
  destruct (lock_fresh_outcome n clnts name timer replies true st pending
              Hc Hnd Hlock)
    as (seen & Hsplit & _ & [(_ & Hs & Hseen & _ & _ & Hcount & Hget)
                            |(Hq & _)]); [| discriminate].
  exists seen. split; [exact Hsplit |]. split; [| auto].
  eapply Forall_impl; [exact Hseen |]. simpl. tauto.
Qed.

Lemma lock_success_keeps_seen_grants_witness :
  exists seen,
    [reply 0 true; reply 1 true; reply 2 true; reply 3 true]
      = seen ++ [reply 3 true] /\
    true_entries [true; true; true; false] = Z.of_nat (length seen).
Proof.
  destruct (lock_success_keeps_seen_grants 4 four_clients "L" 3
              [reply 0 true; reply 1 true; reply 2 true; reply 3 true]
              {| c_i := 3; c_locks := [true; true; true; false];
                 c_sent := [] |}
              [reply 3 true])
    as (seen & Hsplit & _ & _ & Hcount & _).
  - reflexivity.
  - apply NoDup_ListNoDup. repeat constructor; simpl; intuition lia.
  - reflexivity.
  - exists seen. split; [exact Hsplit | exact Hcount].
Defined.

(** A failed attempt on a fresh vector (pool of [n] clients, replies from
    distinct peers) retains nothing: the vector is all false at the decision
    point, and the releases dispatched by the decision loop are exactly one
    per grant it had received. *)
Theorem lock_failed_retains_nothing {Conn : Type} (n : Z)
    (clnts : list (@Client Conn)) (name : string) (timer : nat)
    (replies : list Granted) (st : coord) (pending : list Granted) :
  Z.of_nat (length clnts) = n ->
  NoDup (map index replies) ->
  lock n clnts (replicate (Z.to_nat n) false) name timer replies
    = Ok (false, st, pending) ->
  c_locks st = replicate (Z.to_nat n) false /\
  exists seen,
    replies = seen ++ pending /\
    forall k c nm, In (SendRelease k c nm) (c_sent st) <->
                   nm = name /\ clnts !! k = Some c /\ In (grant_of k) seen.
Proof.
  intros Hc Hnd Hlock.
  destruct (lock_fresh_outcome n clnts name timer replies false st pending
              Hc Hnd Hlock)
    as (seen & Hsplit & _ & [(Hq & _)|(_ & Hfalse & Hsent)]); [discriminate |].
  split; [exact Hfalse |]. exists seen. auto.
Qed.

Lemma lock_failed_retains_nothing_witness :
  c_locks {| c_i := 2; c_locks := [false; false; false; false];
             c_sent := [SendRelease 1 (Some 1%nat) "L";
                        SendRelease 2 (Some 2%nat) "L"] |}
    = replicate (Z.to_nat 4) false.
Proof.
  refine (proj1 (lock_failed_retains_nothing 4 four_clients "L" 9
                   [reply 1 true; reply 2 true; reply 0 false; reply 3 true]
                   _ [reply 3 true] eq_refl _ eq_refl)).
  apply NoDup_ListNoDup. repeat constructor; simpl; intuition lia.
Defined.

(** No grant leaks and none is released twice over: in an attempt on a
    fresh vector (pool of [n] clients, replies from distinct peers of the
    pool), once the drain loop has run, every peer whose grant is among the
    replies is either retained in the vector of a successful attempt and
    was sent no release, or is not retained and was sent a release. *)
Theorem attempt_accounts_for_grants {Conn : Type} (n : Z)
    (clnts : list (@Client Conn)) (name : string) (timer : nat)
    (replies : list Granted) (quorum : bool) (st : coord)
    (pending : list Granted) :
  Z.of_nat (length clnts) = n ->
  NoDup (map index replies) ->
  Forall (fun g => (index g < length clnts)%nat) replies ->
  lock n clnts (replicate (Z.to_nat n) false) name timer replies
    = Ok (quorum, st, pending) ->
  exists st',
    drain n clnts name st pending = Ok st' /\
    forall k, In (grant_of k) replies ->
      (quorum = true /\ c_locks st' !! k = Some true /\
       forall c nm, ~ In (SendRelease k c nm) (c_sent st')) \/
      (c_locks st' !! k = Some false /\
       exists c, clnts !! k = Some c /\
                 In (SendRelease k c name) (c_sent st')).
Proof.
  intros Hc Hnd Hidx Hlock.
  destruct (lock_fresh_outcome n clnts name timer replies quorum st pending
              Hc Hnd Hlock) as (seen & Hsplit & Hi & Hcases).
  pose proof (distinct_replies_bound clnts replies Hnd Hidx) as Hbound.
  rewrite Hsplit, length_app in Hbound.
  assert (Hidx' := Hidx). rewrite Hsplit in Hidx'.
  apply Forall_app in Hidx'. destruct Hidx' as [_ Hpend].
  eexists. split; [apply drain_all; [exact Hpend | lia] |]. simpl.
  intros k Hk.
  assert (Hkn : (k < length clnts)%nat).
  { rewrite Forall_forall in Hidx.
    apply (Hidx (grant_of k)). now apply list_elem_of_In. }
  destruct (lookup_lt_is_Some_2 clnts k Hkn) as [c Hkc].
  rewrite Hsplit in Hk, Hnd. apply in_app_or in Hk.
  assert (Hlate : In (grant_of k) pending ->
                  In (SendRelease k c name)
                     (c_sent st ++ late_releases clnts name pending)).
  { intros H. apply in_or_app. right. apply late_releases_In. auto. }
  destruct Hcases as [(-> & Hs & _ & _ & Hl & _ & Hget)|(-> & Hfalse & Hsent)].
  - destruct Hk as [Hk|Hk].
    + left. split; [reflexivity |]. split; [now apply Hget |].
      intros c' nm Hin. rewrite Hs in Hin. simpl in Hin.
      apply late_releases_In in Hin. destruct Hin as (_ & _ & Hin).
      apply (NoDup_index_disjoint seen pending k Hnd); now apply grant_of_index.
    + right. split; [| eauto].
      destruct (lookup_lt_is_Some_2 (c_locks st) k) as [[|] Hb].
      * rewrite Hl, marked_length, length_replicate. lia.
      * exfalso. apply Hget in Hb.
        apply (NoDup_index_disjoint seen pending k Hnd);
          now apply grant_of_index.
      * exact Hb.
  - right. split.
    + rewrite Hfalse. apply lookup_replicate_2. lia.
    + exists c. split; [exact Hkc |]. destruct Hk as [Hk|Hk]; [| auto].
      apply in_or_app. left. apply Hsent. auto.
Qed.

Lemma attempt_accounts_for_grants_witness :
  exists st',
    drain 4 four_clients "L"
          {| c_i := 3; c_locks := [true; true; true; false]; c_sent := [] |}
          [reply 3 true] = Ok st' /\
    c_locks st' !! 0%nat = Some true /\
    In (SendRelease 3 (Some 3%nat) "L") (c_sent st').
Proof.
  destruct (attempt_accounts_for_grants 4 four_clients "L" 3
              [reply 0 true; reply 1 true; reply 2 true; reply 3 true]
              true
              {| c_i := 3; c_locks := [true; true; true; false];
                 c_sent := [] |}
              [reply 3 true])
    as (st' & Hrun & _).
  - reflexivity.
  - apply NoDup_ListNoDup. repeat constructor; simpl; intuition lia.
  - repeat constructor.
  - reflexivity.
  - exists st'. split; [exact Hrun |].
    vm_compute in Hrun. injection Hrun as <-. simpl. auto.
Defined.

(** ** One attempt: the timer, a full house, and the drain loop after a
    refusal *)

Section Timer.

Context {Conn : Type}.
Variable n : Z.
Implicit Types (clnts : list (@Client Conn)) (pre post : list Granted).

Lemma lock_grants_then clnts grants name pre timer post :
  Forall (fun g => locked g = true /\ (index g < length grants)%nat) pre ->
  Z.of_nat (length pre) <= n ->
  lock n clnts grants name (length pre + timer) (pre ++ post) =
  '(st, pending) ← decision n clnts name timer (Z.of_nat (length pre))
                      (marked pre grants) [] post;
  Ok (quorumMet n (c_locks st), st, pending).
Proof.
  intros Hpre Hlen. unfold lock.
  now rewrite decision_grants by (assumption || lia).
Qed.

Lemma lock_refusal_run clnts grants name timer pre neg post :
  Z.of_nat (length grants) = n -> Z.of_nat (length clnts) = n ->
  Forall (fun g => locked g = true /\ (index g < length grants)%nat) pre ->
  locked neg = false ->
  (length pre < timer)%nat -> Z.of_nat (length pre) < n ->
  exists rel,
    lock n clnts grants name timer (pre ++ neg :: post) =
    Ok (false, {| c_i := Z.of_nat (length pre);
                  c_locks := replicate (Z.to_nat n) false;
                  c_sent := rel |}, post).
Proof.
  intros Hg Hc Hpre Hneg Htimer Hlen.
  destruct (releaseAll_total n clnts (marked pre grants) name)
    as (grants' & rel & Hrun & ->);
    [now rewrite marked_length | exact Hc |].
  exists rel.
  replace timer with (length pre + S (timer - S (length pre)))%nat by lia.
  rewrite lock_grants_then by (assumption || lia).
  rewrite decision_refusal by (assumption || lia).
  rewrite Hrun. simpl. now rewrite quorumMet_replicate_false by lia.
Qed.

End Timer.

(** When the timer fires after the grants [pre], or no further reply ever
    comes, with fewer than [n] replies received: [lock] answers true and
    keeps the marked vector without any release if it meets the quorum;
    otherwise it answers false, leaves the vector all false and has released
    exactly the peers of [pre].  Either way the replies [post] are left to
    the drain loop. *)
Theorem lock_timer_decides {Conn : Type} (n : Z) (clnts : list (@Client Conn))
    (name : string) (timer : nat) (pre post : list Granted) :
  Z.of_nat (length clnts) = n ->
  Forall (fun g => locked g = true /\ (index g < Z.to_nat n)%nat) pre ->
  Z.of_nat (length pre) < n ->
  timer = length pre \/ (post = [] /\ (length pre <= timer)%nat) ->
  (quorumMet n (marked pre (replicate (Z.to_nat n) false)) = true ->
   lock n clnts (replicate (Z.to_nat n) false) name timer (pre ++ post) =
   Ok (true, {| c_i := Z.of_nat (length pre);
                c_locks := marked pre (replicate (Z.to_nat n) false);
                c_sent := [] |}, post)) /\
  (quorumMet n (marked pre (replicate (Z.to_nat n) false)) = false ->
   exists rel,
     lock n clnts (replicate (Z.to_nat n) false) name timer (pre ++ post) =
     Ok (false, {| c_i := Z.of_nat (length pre);
                   c_locks := replicate (Z.to_nat n) false;
                   c_sent := rel |}, post) /\
     forall k c nm, In (SendRelease k c nm) rel <->
                    nm = name /\ clnts !! k = Some c /\
                    In k (map index pre)).
Proof.
  intros Hc Hpre Hlen Htimer.
  assert (Hpre' : Forall (fun g => locked g = true /\
                    (index g < length (replicate (Z.to_nat n) false))%nat) pre)
    by now rewrite length_replicate.
  assert (Hrun : lock n clnts (replicate (Z.to_nat n) false) name timer
                      (pre ++ post) =
                 '(st, pending) ← timed_out n clnts name
                     (Z.of_nat (length pre))
                     (marked pre (replicate (Z.to_nat n) false)) [] post;
                 Ok (quorumMet n (c_locks st), st, pending)).
  { replace timer with (length pre + (timer - length pre))%nat by lia.
    rewrite lock_grants_then by (assumption || lia).
    rewrite decision_timeout; [reflexivity | lia |].
    destruct Htimer as [->|[-> _]]; [left; lia | now right]. }
  rewrite Hrun. unfold timed_out. split; intros Hq; rewrite Hq; simpl.
  - now rewrite Hq.
  - destruct (releaseAll_total n clnts
                (marked pre (replicate (Z.to_nat n) false)) name)
      as (g' & rel & Hrel & ->);
      [rewrite marked_length, length_replicate; lia | exact Hc |].
    rewrite Hrel. simpl. rewrite quorumMet_replicate_false by lia.
    exists rel. split; [reflexivity |].
    apply releaseAll_released in Hrel. destruct Hrel as (_ & _ & Hsent & _).
    intros k c nm. rewrite Hsent, (marked_lookup pre _ k Hpre'). split.
    + intros (-> & _ & Hk & [H|H]); [| auto].
      apply lookup_replicate in H. destruct H as [H _]. discriminate.
    + intros (-> & Hk & Hin). split; [reflexivity |].
      split; [| split; [exact Hk | now right]].
      apply lookup_lt_Some in Hk. lia.
Qed.

Lemma lock_timer_decides_witness :
  lock 4 four_clients (replicate (Z.to_nat 4) false) "L" 3
       ([reply 0 true; reply 1 true; reply 2 true] ++ [reply 3 true]) =
  Ok (true, {| c_i := Z.of_nat 3;
               c_locks := marked [reply 0 true; reply 1 true; reply 2 true]
                                 (replicate (Z.to_nat 4) false);
               c_sent := [] |}, [reply 3 true]).
Proof.
  refine (proj1 (lock_timer_decides 4 four_clients "L" 3
                   [reply 0 true; reply 1 true; reply 2 true] [reply 3 true]
                   eq_refl _ _ _) eq_refl).
  - repeat constructor.
  - simpl. lia.
  - now left.
Defined.

(** When all [n >= 1] peers grant ahead of the timer, [lock] answers true
    with every entry marked, nothing released and nothing left to drain. *)
Theorem lock_all_granted {Conn : Type} (n : Z) (clnts : list (@Client Conn))
    (name : string) (timer : nat) (replies : list Granted) :
  1 <= n ->
  Forall (fun g => locked g = true /\ (index g < Z.to_nat n)%nat) replies ->
  NoDup (map index replies) ->
  Z.of_nat (length replies) = n -> (length replies <= timer)%nat ->
  lock n clnts (replicate (Z.to_nat n) false) name timer replies =
  Ok (true, {| c_i := n; c_locks := replicate (Z.to_nat n) true;
               c_sent := [] |}, []).
Proof.
  intros Hn Hall Hnd Hlen Htimer.
  assert (Hall' : Forall (fun g => locked g = true /\
              (index g < length (replicate (Z.to_nat n) false))%nat) replies)
    by now rewrite length_replicate.
  pose proof (marked_count replies _ Hnd (fresh_in_range _ _ Hall')) as Hcount.
  rewrite true_entries_replicate_false in Hcount.
  assert (Hfull : marked replies (replicate (Z.to_nat n) false)
                  = replicate (Z.to_nat n) true).
  { pose proof (true_entries_full
                  (marked replies (replicate (Z.to_nat n) false))) as H.
    rewrite marked_length, length_replicate in H. apply H. lia. }
  pose proof (lock_grants_then n clnts (replicate (Z.to_nat n) false) name
                replies (timer - length replies) [] Hall' ltac:(lia)) as Hrun.
  rewrite app_nil_r in Hrun.
  replace (length replies + (timer - length replies))%nat with timer in Hrun
    by lia.
  rewrite Hrun, decision_done by lia. simpl. rewrite Hfull, Hlen.
  assert (Hq : quorumMet n (replicate (Z.to_nat n) true) = true).
  { apply quorumMet_true. rewrite <- Hfull, Hcount.
    rewrite Z.quot_div_nonneg by lia.
    pose proof (Z.div_lt_upper_bound n 2 n ltac:(lia) ltac:(lia)). lia. }
  now rewrite Hq.
Qed.

Lemma lock_all_granted_witness :
  lock 3 [Some 7%nat; Some 8%nat; Some 9%nat] (replicate (Z.to_nat 3) false)
       "L" 5 [reply 2 true; reply 0 true; reply 1 true] =
  Ok (true, {| c_i := 3; c_locks := replicate (Z.to_nat 3) true;
               c_sent := [] |}, []).
Proof.
  apply lock_all_granted.
  - lia.
  - repeat constructor.
  - apply NoDup_ListNoDup. repeat constructor; simpl; intuition lia.
  - reflexivity.
  - simpl. lia.
Defined.

(** After a refusal the drain loop never finishes: the [break] has left
    the counter one short, so once the loop has received and released all
    the other replies it still waits for one more, with the counter below
    [n]. *)
Theorem drain_after_refusal_waits {Conn : Type} (n : Z)
    (clnts : list (@Client Conn)) (name : string) (timer : nat)
    (pre : list Granted) (neg : Granted) (post : list Granted) :
  Z.of_nat (length clnts) = n ->
  Forall (fun g => locked g = true /\ (index g < Z.to_nat n)%nat) pre ->
  locked neg = false ->
  (length pre < timer)%nat ->
  Forall (fun g => (index g < length clnts)%nat) post ->
  Z.of_nat (length (pre ++ neg :: post)) <= n ->
  exists st st',
    lock n clnts (replicate (Z.to_nat n) false) name timer
         (pre ++ neg :: post) = Ok (false, st, post) /\
    drain n clnts name st post = Ok st' /\
    c_sent st' = c_sent st ++ late_releases clnts name post /\
    c_i st' = Z.of_nat (length pre + length post) /\
    c_i st' < n.
Proof.
  intros Hc Hpre Hneg Htimer Hpost Hlen.
  rewrite length_app in Hlen. simpl in Hlen.
  destruct (lock_refusal_run n clnts (replicate (Z.to_nat n) false) name timer
              pre neg post) as [rel Hrun];
    try assumption; try lia;
    [rewrite length_replicate; lia | now rewrite length_replicate |].
  eexists _, _. split; [exact Hrun |].
  split; [apply drain_all; [exact Hpost | simpl; lia] |].
  simpl. split; [reflexivity |]. lia.
Qed.

Lemma drain_after_refusal_waits_witness :
  exists st st',
    lock 4 four_clients (replicate (Z.to_nat 4) false) "L" 9
         ([] ++ reply 0 false :: [reply 1 true; reply 2 true; reply 3 true])
      = Ok (false, st, [reply 1 true; reply 2 true; reply 3 true]) /\
    drain 4 four_clients "L" st [reply 1 true; reply 2 true; reply 3 true]
      = Ok st' /\
    c_i st' < 4.
Proof.
  destruct (drain_after_refusal_waits 4 four_clients "L" 9 []
              (reply 0 false) [reply 1 true; reply 2 true; reply 3 true])
    as (st & st' & Hrun & Hdrain & _ & _ & Hlt).
  - reflexivity.
  - constructor.
  - reflexivity.
  - simpl. lia.
  - repeat constructor.
  - simpl. lia.
  - exists st, st'. auto.
Defined.

(** ** Back-off: growth and reset *)

(** One update of the back-off with a draw in range either lets [backOff]
    grow by less than [2^runs] (staying at most 1024) and advances [runs]
    up to 10, or resets [runs] to 1 and [backOff] to a value below 64. *)
Theorem backoff_step_grows_or_resets (runs backOff m : Z) :
  valid_draw m -> 1 <= runs <= 10 -> 0 <= backOff <= 1024 ->
  (fst (backoff_step runs backOff m) = Z.min (runs + 1) 10 /\
   backOff <= snd (backoff_step runs backOff m) <= 1024 /\
   snd (backoff_step runs backOff m) < backOff + 2 ^ runs) \/
  (fst (backoff_step runs backOff m) = 1 /\
   0 <= snd (backoff_step runs backOff m) < 64 /\
   1024 < backOff + backoff_increment runs m).
Proof.
  intros [Hm0 Hm] Hruns Hb. unfold backoff_step.
  assert (Hpow : 0 < 2 ^ runs) by (apply Z.pow_pos_nonneg; lia).
  assert (Hinc : 0 <= backoff_increment runs m < 2 ^ runs).
  { unfold backoff_increment. split.
    - apply Z.quot_pos; [nia | lia].
    - apply Z.quot_lt_upper_bound; [nia | lia | nia]. }
  destruct (Z.gtb_spec (backOff + backoff_increment runs m) 1024) as [Hgt|Hle].
  - right. simpl. split; [reflexivity |]. split; [| lia].
    apply Z.rem_bound_pos; lia.
  - left. destruct (Z.ltb_spec runs 10); simpl; lia.
Qed.

Lemma backoff_step_grows_or_resets_witness :
  fst (backoff_step 10 1014 (74 * 2 ^ 43)) = 1 /\
  0 <= snd (backoff_step 10 1014 (74 * 2 ^ 43)) < 64.
Proof.
  destruct (backoff_step_grows_or_resets 10 1014 (74 * 2 ^ 43))
    as [(H & _)|(H1 & H2 & _)].
  - unfold valid_draw. vm_compute. split; congruence.
  - lia.
  - lia.
  - vm_compute in H. discriminate H.
  - split; [exact H1 | exact H2].
Defined.

(** ** Lock: what the retry loop does round by round *)

Section LockRounds.

Context {Conn : Type}.
Variable n : Z.
Variable nodes : list string.
Implicit Types (dm : @DMutex Conn) (sched more : list (@round Conn))
  (log : list (@effect Conn)).

(** While the loop is still retrying it has kept the name and the stored
    vector, and a well-formed mutex is still well-formed. *)
Lemma Lock_loop_retrying sched : forall dm runs backOff log dm' runs' backOff' log',
  Lock_loop n nodes sched dm runs backOff log = Retrying dm' runs' backOff' log' ->
  Name dm' = Name dm /\ locks dm' = locks dm /\
  (DMutex_ok n dm = true -> DMutex_ok n dm' = true).
Proof.
  induction sched as [|r sched IH];
    intros dm runs backOff log dm' runs' backOff' log' H; simpl in H.
  - injection H as <- _ _ _. auto.
  - pose proof (Lock_try_tried n nodes r dm) as Htried.
    destruct (Lock_try n nodes r dm) as [dm1 sent bg1|dm1 sent|msg sent];
      [discriminate | | discriminate].
    destruct (backoff_step runs backOff (r_draw r)) as [r1 b1].
    apply IH in H. destruct H as (Hname & Hlocks & Hok).
    pose proof Htried as (_ & Hname1 & Hlocks1 & _).
    split; [congruence |]. split; [congruence |].
    intros Hdm. apply Hok. exact (tried_ok n r dm (Lost dm1 sent) Hdm Htried).
Qed.

(** Rounds after the one in which the loop returns or dies are never
    played; rounds after a prefix of failures continue from its state. *)
Lemma Lock_loop_app sched more : forall dm runs backOff log,
  Lock_loop n nodes (sched ++ more) dm runs backOff log =
  match Lock_loop n nodes sched dm runs backOff log with
  | Retrying dm' runs' backOff' log' =>
      Lock_loop n nodes more dm' runs' backOff' log'
  | o => o
  end.
Proof.
  induction sched as [|r sched IH]; intros dm runs backOff log; simpl.
  - reflexivity.
  - destruct (Lock_try n nodes r dm) as [dm1 sent bg1|dm1 sent|msg sent];
      try reflexivity.
    destruct (backoff_step runs backOff (r_draw r)) as [r1 b1]. apply IH.
Qed.

Lemma sleeps_of_app log log' :
  sleeps_of (log ++ log') = sleeps_of log ++ sleeps_of log'.
Proof. unfold sleeps_of. apply flat_map_app. Qed.

Lemma sleeps_of_none log :
  (forall ms, ~ In (Sleep ms) log) -> sleeps_of log = [].
Proof.
  induction log as [|e log IH]; intros H; [reflexivity |].
  unfold sleeps_of in *. simpl. destruct e as [k c nm|ms].
  - simpl. apply IH. intros ms Hin. apply (H ms). now right.
  - exfalso. apply (H ms). now left.
Qed.

Lemma tried_no_sleep (r : @round Conn) dm (a : @attempt Conn) :
  tried n r dm a ->
  match a with
  | Won _ sent _ | Lost _ sent | Died _ sent => sleeps_of sent = []
  end.
Proof.
  destruct a; simpl; intros H; apply sleeps_of_none.
  - now destruct H as (_ & _ & [Hs _] & _).
  - now destruct H as (_ & _ & _ & [Hs _] & _).
  - now destruct H as [Hs _].
Qed.

(** The sleeps of the loop are the back-off values produced by the draws
    of the rounds it lost, one per lost round and in that order. *)
Lemma Lock_loop_sleeps_trace sched : forall dm runs backOff log,
  exists k : nat,
    (k <= length sched)%nat /\
    sleeps_of (log_of (Lock_loop n nodes sched dm runs backOff log)) =
    sleeps_of log ++ take k (backoff_trace runs backOff (map r_draw sched)) /\
    (forall dm' r' b' l',
        Lock_loop n nodes sched dm runs backOff log = Retrying dm' r' b' l' ->
        k = length sched).
Proof.
  induction sched as [|r sched IH]; intros dm runs backOff log; simpl.
  - exists 0%nat. split; [lia |]. split; [now rewrite app_nil_r | auto].
  - pose proof (tried_no_sleep r dm _ (Lock_try_tried n nodes r dm)) as Hno.
    destruct (Lock_try n nodes r dm) as [dm1 sent bg1|dm1 sent|msg sent];
      simpl.
    + exists 0%nat. split; [lia |].
      rewrite sleeps_of_app, Hno. split; [reflexivity | discriminate].
    + destruct (backoff_step runs backOff (r_draw r)) as [r1 b1].
      destruct (IH dm1 r1 b1 (log ++ sent ++ [Sleep backOff]))
        as (k & Hk & Htrace & Hretry).
      exists (S k). split; [lia |]. split.
      * rewrite Htrace, !sleeps_of_app, Hno. simpl.
        now rewrite <- app_assoc.
      * intros dm' r' b' l' H. f_equal. eauto.
    + exists 0%nat. split; [lia |].
      rewrite sleeps_of_app, Hno. split; [reflexivity | discriminate].
Qed.

End LockRounds.

Lemma Lock_ok_witness :
  DMutex_ok 4
    {| Name := "L"; locks := [true; true; true; false];
       clnts := Some four_clients |} = true.
Proof.
  exact (Lock_ok 4 four_nodes two_rounds (newDMutex "L") _ _ _ eq_refl eq_refl).
Defined.

(** The sleeps of [Lock] depend on the random draws only: they are the
    back-off values that the draws of the lost rounds produce from
    [(runs, backOff) = (1, 1)], one sleep per lost round, and all of them
    when every round of the schedule is lost. *)
Theorem Lock_sleeps_follow_draws {Conn : Type} (n : Z) (nodes : list string)
    (sched : list (@round Conn)) (dm : @DMutex Conn) :
  exists k : nat,
    (k <= length sched)%nat /\
    sleeps_of (log_of (Lock n nodes sched dm)) =
      take k (backoff_trace 1 1 (map r_draw sched)) /\
    (forall dm' runs backOff log,
        Lock n nodes sched dm = Retrying dm' runs backOff log ->
        k = length sched).
Proof.
  destruct (Lock_loop_sleeps_trace n nodes sched dm 1 1 [])
    as (k & Hk & Htrace & Hretry).
  exists k. split; [exact Hk |]. split; [exact Htrace | exact Hretry].
Qed.

(** [Lock] stops at the first round that wins (or dies): rounds after it are
    never played.  After a schedule of lost rounds the loop goes on from
    the state those rounds left. *)
Theorem Lock_stops_at_first_win {Conn : Type} (n : Z) (nodes : list string)
    (sched more : list (@round Conn)) (dm : @DMutex Conn) :
  (forall dm' log bg,
      Lock n nodes sched dm = Returned dm' log bg ->
      Lock n nodes (sched ++ more) dm = Returned dm' log bg) /\
  (forall msg log,
      Lock n nodes sched dm = Crashed msg log ->
      Lock n nodes (sched ++ more) dm = Crashed msg log) /\
  (forall dm' runs backOff log,
      Lock n nodes sched dm = Retrying dm' runs backOff log ->
      Lock n nodes (sched ++ more) dm =
      Lock_loop n nodes more dm' runs backOff log).
Proof.
  unfold Lock. repeat split; intros; rewrite Lock_loop_app;
    match goal with H : Lock_loop _ _ _ _ _ _ _ = _ |- _ => now rewrite H end.
Qed.

Lemma Lock_stops_at_first_win_witness :
  Lock 4 four_nodes (two_rounds ++ two_rounds) (newDMutex "L") =
  Lock 4 four_nodes two_rounds (newDMutex "L").
Proof.
  destruct (Lock_stops_at_first_win 4 four_nodes two_rounds two_rounds
              (newDMutex "L")) as (Hret & _ & _).
  rewrite (Hret _ _ _ eq_refl). reflexivity.
Defined.

(** A [Lock] that has not returned yet has not touched the stored vector
    or the name, and has kept the mutex well-formed. *)
Theorem Lock_retrying_frame {Conn : Type} (n : Z) (nodes : list string)
    (sched : list (@round Conn)) (dm dm' : @DMutex Conn)
    (runs backOff : Z) (log : list effect) :
  Lock n nodes sched dm = Retrying dm' runs backOff log ->
  Name dm' = Name dm /\ locks dm' = locks dm /\
  (DMutex_ok n dm = true -> DMutex_ok n dm' = true).
Proof. apply Lock_loop_retrying. Qed.

Lemma Lock_retrying_frame_witness :
  locks {| Name := "L"; locks := @nil bool; clnts := Some [Some 0%nat] |}
    = locks (@newDMutex nat "L").
Proof.
  exact (proj1 (proj2 (Lock_retrying_frame 1 ["A"] zero_sleep_sched
                         (newDMutex "L") _ _ _ _ zero_sleep_log))).
Defined.

(** A cluster without peers never grants: for [n <= 0], [Lock] never
    returns, whatever the schedule. *)
Theorem Lock_needs_a_peer {Conn : Type} (n : Z) (nodes : list string)
    (sched : list (@round Conn)) (dm dm' : @DMutex Conn)
    (log : list effect) (bg : result coord) :
  n <= 0 -> Lock n nodes sched dm <> Returned dm' log bg.
Proof.
  intros Hn H. unfold Lock in H. apply Lock_loop_returned in H.
  destruct H as (r & dm0 & sent & _ & _ & Hwon & _). simpl in Hwon.
  destruct Hwon as (Hn0 & _ & _ & cs & st & pending & _ & _ & _ & Hq & Hlen & _).
  apply quorumMet_true in Hq.
  pose proof (true_entries_le_length (c_locks st)) as Hle.
  assert (n = 0) as -> by lia.
  change (0 ÷ 2 + 1) with 1 in Hq. change (Z.to_nat 0) with 0%nat in Hlen.
  lia.
Qed.

Lemma Lock_needs_a_peer_witness :
  Lock 0 [] [ {| r_dial := fun i _ => Some i; r_replies := [];
                 r_timer := 0; r_draw := 0 |} ] (newDMutex "L")
  <> Returned (@newDMutex nat "L") [] (Ok {| c_i := 0; c_locks := [];
                                             c_sent := [] |}).
Proof. apply Lock_needs_a_peer. lia. Defined.

(** ** Lock, then Unlock *)

Lemma Unlock_sent_count {Conn : Type} (n : Z) (dm dm' : @DMutex Conn)
    (sent : list effect) :
  DMutex_ok n dm = true -> Unlock n dm = Ok (dm', sent) ->
  Z.of_nat (length sent) = true_entries (locks dm).
Proof.
  intros Hok Hrun.
  destruct (Unlock_Ok_inv n dm dm' sent Hok Hrun) as [Hn Hq].
  destruct (DMutex_ok_inv n dm Hok) as [Hnil|(_ & cs & Hcs & Hlcs)].
  { now apply (quorumMet_nonempty n _ Hn) in Hq. }
  unfold Unlock in Hrun. inv_bind Hrun. destruct (negb a); [discriminate |].
  inv_bind Hrun. destruct a0 as [g s]. injection Hrun as _ <-.
  unfold clients in Ha0. rewrite Hcs in Ha0. simpl in Ha0.
  rewrite (Unlock_range_releaseAll_loop [] cs) in Ha0. simpl in Ha0.
  apply releaseAll_loop_count in Ha0.
  rewrite drop_0, take_ge in Ha0 by lia. exact Ha0.
Qed.

(** [Unlock] on a well-formed mutex dispatches exactly as many releases as
    the stored vector has true entries, to pairwise different indices of
    the vector. *)
Theorem Unlock_one_release_per_grant {Conn : Type} (n : Z)
    (dm dm' : @DMutex Conn) (sent : list effect) :
  DMutex_ok n dm = true -> Unlock n dm = Ok (dm', sent) ->
  Z.of_nat (length sent) = true_entries (locks dm) /\
  forall k c nm, In (SendRelease k c nm) sent <->
                 nm = Name dm /\ clients dm !! k = Some c /\
                 locks dm !! k = Some true.
Proof.
  intros Hok Hrun. split; [exact (Unlock_sent_count n dm dm' sent Hok Hrun) |].
  destruct (Unlock_Ok_inv n dm dm' sent Hok Hrun) as [Hn Hq].
  destruct (Unlock_held n dm Hn Hok Hq) as (g & s & Hrun' & Hrel).
  rewrite Hrun in Hrun'. injection Hrun' as _ ->.
  destruct Hrel as (_ & _ & Hsent & _). intros k c nm. rewrite Hsent.
  split; [tauto |]. intros (-> & Hc & Hk).
  pose proof (lookup_lt_Some _ _ _ Hk). repeat split; try assumption; lia.
Qed.

Lemma Unlock_one_release_per_grant_witness :
  Z.of_nat (length [SendRelease 0 (Some 7%nat) "L";
                    SendRelease 2 (Some 9%nat) "L"]) =
  true_entries [true; false; true].
Proof.
  exact (proj1 (Unlock_one_release_per_grant 3
                  {| Name := "L"; locks := [true; false; true];
                     clnts := Some [Some 7%nat; None; Some 9%nat] |}
                  _ _ eq_refl eq_refl)).
Defined.

(** After [Lock] has returned on a well-formed mutex, [locked] answers
    true and [Unlock] returns: it releases exactly the peers retained by the
    winning attempt, each of which granted in a round of the schedule, and
    leaves a mutex on which [locked] answers false. *)
Theorem Lock_then_Unlock {Conn : Type} (n : Z) (nodes : list string)
    (sched : list (@round Conn)) (dm dm' : @DMutex Conn)
    (log : list effect) (bg : result coord) :
  DMutex_ok n dm = true ->
  Lock n nodes sched dm = Returned dm' log bg ->
  DMutex_locked n dm' = Ok true /\
  exists dm'' sent,
    Unlock n dm' = Ok (dm'', sent) /\
    (forall k c nm, In (SendRelease k c nm) sent <->
                    nm = Name dm /\ clients dm' !! k = Some c /\
                    locks dm' !! k = Some true) /\
    (forall k c nm, In (SendRelease k c nm) sent ->
                    exists r, In r sched /\ In (grant_of k) (r_replies r)) /\
    locks dm'' = replicate (Z.to_nat n) false /\
    DMutex_locked n dm'' = Ok false.
Proof.
  intros Hok Hrun. unfold Lock in Hrun. apply Lock_loop_returned in Hrun.
  destruct Hrun as (r & dm0 & sent0 & Hr & Hname0 & Hwon & Hok').
  specialize (Hok' Hok). simpl in Hwon.
  destruct Hwon as (Hn & Hname & _ & cs & st & pending & Hcs & _ & Hlock & Hq
                    & Hlen & Hl & _).
  rewrite <- Hl in Hq, Hlen.
  assert (Hlocked : DMutex_locked n dm' = Ok true)
    by now rewrite (DMutex_locked_ok n dm' Hn Hok'), Hq.
  split; [exact Hlocked |].
  destruct (Unlock_held n dm' Hn Hok' Hq) as (g & sent & HU & Hrel).
  pose proof (released_all_false _ _ _ _ _ Hrel) as Hg.
  rewrite Hlen in Hg. subst g.
  destruct Hrel as (_ & _ & Hsent & _).
  eexists _, sent. split; [exact HU |]. simpl.
  apply lock_fresh in Hlock. destruct Hlock as (_ & _ & _ & Hget & _).
  split; [| split; [| split; [reflexivity |]]].
  - intros k c nm. rewrite Hsent, Hname, Hname0. split; [tauto |].
    intros (-> & Hc & Hk). pose proof (lookup_lt_Some _ _ _ Hk).
    repeat split; try assumption; lia.
  - intros k c nm Hin. apply Hsent in Hin. destruct Hin as (_ & _ & _ & Hk).
    exists r. split; [exact Hr |]. apply Hget. now rewrite <- Hl.
  - unfold DMutex_locked. rewrite make_nonneg by exact Hn. simpl.
    rewrite copy_same_length by reflexivity.
    now rewrite quorumMet_replicate_false.
Qed.

Lemma Lock_then_Unlock_witness :
  DMutex_locked 4 {| Name := "L"; locks := [true; true; true; false];
                     clnts := Some four_clients |} = Ok true.
Proof.
  exact (proj1 (Lock_then_Unlock 4 four_nodes two_rounds (newDMutex "L")
                  _ _ _ eq_refl eq_refl)).
Defined.

(** ** Panics: where they come from and where they cannot *)

Lemma releaseAll_loop_Ok_iff {Conn : Type} (todo : nat) :
  forall (lock : nat) (clnts : list (@Client Conn)) (grants : list bool)
         (name : string),
  (exists r, releaseAll_loop todo lock clnts grants name = Ok r) <->
  (todo = 0%nat \/ (lock + todo <= length grants)%nat) /\
  (forall k, (lock <= k < lock + todo)%nat -> grants !! k = Some true ->
             (k < length clnts)%nat).
Proof.
  induction todo as [|todo IH]; intros lock clnts grants name; simpl.
  - split; [intros _; split; [now left | intros k Hk; lia] | eauto].
  - destruct (grants !! lock) as [b|] eqn:Hlock.
    + pose proof (lookup_lt_Some _ _ _ Hlock) as Hlt.
      assert (Hwin : forall g' : list bool, length g' = length grants ->
                 (todo = 0%nat \/ (S lock + todo <= length g')%nat) <->
                 (lock + S todo <= length grants)%nat).
      { intros g' ->. lia. }
      destruct b.
      * destruct (clnts !! lock) as [c|] eqn:Hc.
        -- pose proof (lookup_lt_Some _ _ _ Hc) as Hltc.
           specialize (IH (S lock) clnts (<[lock:=false]> grants) name).
           rewrite (Hwin _ (length_insert _ _ _)) in IH. split.
           ++ intros [r H]. inv_bind H.
              destruct (proj1 IH (ex_intro _ a Ha)) as [Hlen Hall].
              split; [now right |]. intros k Hk Hkt.
              destruct (decide (k = lock)) as [->|Hne]; [exact Hltc |].
              apply Hall; [lia |]. now rewrite list_lookup_insert_ne by lia.
           ++ intros [Hlen Hall]. destruct (proj2 IH) as [[g s] ->].
              { split; [destruct Hlen; [discriminate | assumption] |].
                intros k Hk Hkt. rewrite list_lookup_insert_ne in Hkt by lia.
                apply Hall; [lia | exact Hkt]. }
              simpl. eauto.
        -- split; [intros [r H]; discriminate |].
           intros [_ Hall]. specialize (Hall lock ltac:(lia) Hlock).
           apply lookup_ge_None in Hc. lia.
      * specialize (IH (S lock) clnts grants name).
        rewrite (Hwin _ eq_refl) in IH. rewrite IH. split.
        -- intros [Hlen Hall]. split; [now right |]. intros k Hk Hkt.
           destruct (decide (k = lock)) as [->|Hne]; [congruence |].
           apply Hall; [lia | exact Hkt].
        -- intros [Hlen Hall].
           split; [destruct Hlen; [discriminate | assumption] |].
           intros k Hk Hkt. apply Hall; [lia | exact Hkt].
    + apply lookup_ge_None in Hlock. split; [intros [r H]; discriminate |].
      intros [[H|H] _]; [discriminate | lia].
Qed.

(** [releaseAll] panics exactly when the vector has fewer than [n] entries
    or a marked index below [n] has no slot in the pool. *)
Theorem releaseAll_Ok_iff {Conn : Type} (n : Z) (clnts : list (@Client Conn))
    (grants : list bool) (name : string) :
  (exists r, releaseAll n clnts grants name = Ok r) <->
  n <= Z.of_nat (length grants) /\
  (forall k, Z.of_nat k < n -> grants !! k = Some true ->
             (k < length clnts)%nat).
Proof.
  unfold releaseAll. rewrite releaseAll_loop_Ok_iff. split.
  - intros [Hlen Hall]. split; [lia |]. intros k Hk. apply Hall. lia.
  - intros [Hlen Hall]. split; [lia |]. intros k Hk. apply Hall. lia.
Qed.

(** A pool without nil slot is left as it is: [connectLazy] dials nothing,
    whatever the dialler would answer. *)
Theorem connectLazy_connected {Conn : Type} (n : Z) (nodes : list string)
    (dial : nat -> string -> @Client Conn) (dm : @DMutex Conn)
    (cs : list (@Client Conn)) :
  clnts dm = Some cs -> Forall (fun c => c <> None) cs ->
  connectLazy n nodes dial dm =
  Ok {| Name := Name dm; locks := locks dm; clnts := Some cs |}.
Proof.
  intros Hcs Hall. unfold connectLazy. rewrite Hcs. simpl. clear Hcs.
  assert (Hrange : forall i, connect_range nodes dial i cs = Ok cs).
  { induction Hall as [|c cs Hc Hall IH]; intros i; simpl; [reflexivity |].
    destruct c as [h|]; [| congruence]. simpl. now rewrite IH. }
  now rewrite Hrange.
Qed.

Lemma connectLazy_connected_witness :
  connectLazy 2 [] (fun _ _ => None)
              {| Name := "L"; locks := [];
                 clnts := Some [Some 7%nat; Some 8%nat] |} =
  Ok {| Name := "L"; locks := []; clnts := Some [Some 7%nat; Some 8%nat] |}.
Proof.
  apply (connectLazy_connected 2 [] (fun _ _ => None)
           {| Name := "L"; locks := [];
              clnts := Some [Some 7%nat; Some 8%nat] |}
           [Some 7%nat; Some 8%nat] eq_refl).
  repeat constructor; discriminate.
Defined.

(** With a negative [n] the first pass of the loop of [Lock] panics before
    anything is sent. *)
Theorem Lock_negative_n_crashes {Conn : Type} (n : Z) (nodes : list string)
    (r : @round Conn) (sched : list round) (dm : @DMutex Conn) :
  n < 0 -> exists msg, Lock n nodes (r :: sched) dm = Crashed msg [].
Proof.
  intros Hn. unfold Lock. simpl. unfold Lock_try.
  destruct (connectLazy n nodes (r_dial r) dm) as [dm1|msg]; [| eauto].
  unfold make. destruct (Z.ltb_spec n 0); [eauto | lia].
Qed.

Lemma Lock_negative_n_crashes_witness :
  exists msg,
    Lock (-1) ["A"] [ {| r_dial := fun i _ => Some i; r_replies := [];
                        r_timer := 0; r_draw := 0 |} ] (newDMutex "L")
    = Crashed msg [].
Proof. apply Lock_negative_n_crashes. lia. Defined.

Section Live.

Context {Conn : Type}.
Variable n : Z.
Variable nodes : list string.
Implicit Types (clnts : list (@Client Conn)) (grants : list bool)
  (replies pending : list Granted) (dm : @DMutex Conn).






End Live.


